(** * Adaptive token poller and dynamic key provider

  A shallow embedding of
  - [examples/dynamic_api_key_server.py] (class [AdaptiveTokenPoller]) and
  - [src/mcp_agent/llm/dynamic_key_provider.py] (class [DynamicKeyProvider])
  together with the properties their design document states about them.

  Conventions of the embedding.
  - Python [int] is [Z].  Python [float] (timestamps returned by
    [time.time()], averages, variances) is idealised as an exact rational
    [Q]: rounding, infinities and NaN are not modelled.  A number decoded
    from JSON is an [int] or a [float], and the two are kept apart: an
    [int] may be too large to be converted to a [float].
  - [str] is [string]; [Optional[str]] is [option string].
  - The attributes of an object are the fields of a record; a method that
    mutates [self] becomes a function returning the new record.
  - A dictionary keyed by strings is a [gmap string _]. *)

From Stdlib Require Import ZArith QArith Qminmax Lia Bool.
From stdpp Require Import base option list gmap strings.

Local Open Scope Z_scope.

(** ** Arithmetic shared by both files *)

(** [a < b] and [a > b] on floats, as booleans. *)
Definition Qltb (a b : Q) : bool := negb (Qle_bool b a).
Definition Qgtb (a b : Q) : bool := Qltb b a.

(** [int(x)] on a float: truncation towards zero. *)
Definition int (x : Q) : Z := Z.quot (Qnum x) (Zpos (Qden x)).

(** [len(l)] *)
Definition len {A} (l : list A) : Z := Z.of_nat (length l).

(** [sum(l)] on integers: a left fold starting from [0]. *)
Definition sum (l : list Z) : Z := fold_left Z.add l 0.

(** [sum(g)] on floats. *)
Definition fsum (l : list Q) : Q := fold_left Qplus l (0 # 1)%Q.

(** ** examples/dynamic_api_key_server.py *)

Module Poller.

(** [@dataclass class TokenPattern] *)
Record TokenPattern := {
  refresh_intervals : list Z;
  last_refresh_time : Q;
  confidence_level : Z
}.

(** The attributes of [AdaptiveTokenPoller] ([self.lock] guards the
    mutations below and carries no data). *)
Record AdaptiveTokenPoller := {
  current_token : option string;
  pattern : TokenPattern;
  polling_interval : Z;
  running : bool
}.

(** [AdaptiveTokenPoller.__init__] *)
Definition __init__ : AdaptiveTokenPoller :=
  {| current_token := None;
     pattern := {| refresh_intervals := [];
                   last_refresh_time := 0%Q;
                   confidence_level := 0 |};
     polling_interval := 30;
     running := false |}.

(** [sum(intervals) / len(intervals)].  Python raises on an empty list;
    both call sites test the length first, and [Q] division by zero is
    [0] here. *)
Definition average (intervals : list Z) : Q :=
  (inject_Z (sum intervals) / inject_Z (len intervals))%Q.

(** [sum((x - avg_interval) ** 2 for x in intervals) / len(intervals)] *)
Definition variance (intervals : list Z) : Q :=
  let avg_interval := average intervals in
  (fsum (map (fun x => (inject_Z x - avg_interval) ^ 2) intervals)
     / inject_Z (len intervals))%Q.

(** [_update_pattern(self, interval)] *)
Definition _update_pattern (p : TokenPattern) (interval : Q) : TokenPattern :=
  (* self.pattern.refresh_intervals.append(int(interval)) *)
  let appended := refresh_intervals p ++ [int interval] in
  (* if len(...) > 5: self.pattern.refresh_intervals.pop(0) *)
  let intervals := if len appended >? 5 then tail appended else appended in
  (* if len(...) >= 3: ... *)
  let confidence :=
    if len intervals >=? 3 then
      if Qltb (variance intervals) (100 # 1) then confidence_level p + 1
      else Z.max 0 (confidence_level p - 1)
    else confidence_level p in
  {| refresh_intervals := intervals;
     last_refresh_time := last_refresh_time p;
     confidence_level := confidence |}.

(** [_calculate_next_poll_interval(self, consecutive_same_tokens, current_time)];
    only [self.pattern] is read. *)
Definition _calculate_next_poll_interval
    (p : TokenPattern) (consecutive_same_tokens : Z) (current_time : Q) : Z :=
  if (confidence_level p >=? 3)
     && negb (bool_decide (refresh_intervals p = [])) then
    let avg_refresh_time := average (refresh_intervals p) in
    let time_since_last_refresh := (current_time - last_refresh_time p)%Q in
    let time_until_next_refresh :=
      (avg_refresh_time - time_since_last_refresh)%Q in
    if Qgtb time_until_next_refresh (300 # 1) then 120
    else if Qgtb time_until_next_refresh (120 # 1) then 60
    else 30
  else if consecutive_same_tokens <? 5 then 30
  else if consecutive_same_tokens <? 20 then 60
  else if consecutive_same_tokens <? 40 then 120
  else 300.

(** *** The polling loop

    The loop talks to its environment at its [await]s and through
    [time.time()].  One iteration is a function of what the environment
    answers there. *)

(** What can come out of an [await].  [Exception msg] stands for any
    instance of [Exception] (the one [_fetch_token_from_helix] raises on a
    non-zero exit status, an [OSError] of the subprocess, ...);
    [asyncio.CancelledError] derives from [BaseException] only. *)
Inductive exn :=
| Exception (msg : string)
| CancelledError.

Definition isinstance_Exception (e : exn) : bool :=
  match e with
  | Exception _ => true
  | CancelledError => false
  end.

(** [await self._fetch_token_from_helix()] returns a token or raises. *)
Inductive fetch_outcome :=
| Returned (token : string)
| Raised (e : exn).

Record poll_env := {
  fetch : fetch_outcome;      (* await self._fetch_token_from_helix() *)
  time_time : Q;              (* current_time = time.time() *)
  sleep_cancelled : bool      (* task.cancel() lands in the await asyncio.sleep(...) *)
}.

(** The block [with self.lock: ...] of [_poll_loop], returning the new
    attributes and the new value of the local [consecutive_same_tokens]. *)
Definition locked_update (self : AdaptiveTokenPoller)
    (consecutive_same_tokens : Z) (new_token : string) (current_time : Q)
  : AdaptiveTokenPoller * Z :=
  if bool_decide (Some new_token <> current_token self) then
    (* Token changed! *)
    let pat :=
      match current_token self with
      | Some _ =>   (* Not the first fetch *)
          let interval := (current_time - last_refresh_time (pattern self))%Q in
          _update_pattern (pattern self) interval
      | None => pattern self
      end in
    ({| current_token := Some new_token;
        pattern := {| refresh_intervals := refresh_intervals pat;
                      last_refresh_time := current_time;
                      confidence_level := confidence_level pat |};
        polling_interval := polling_interval self;
        running := running self |},
     0)
  else (self, consecutive_same_tokens + 1).

(** How one pass through the body of [while self.running] ends: at the end
    of a sleep, or with an exception leaving the [try] statement. *)
Inductive iteration_outcome :=
| Slept (self : AdaptiveTokenPoller) (consecutive_same_tokens : Z) (seconds : Z)
| Propagated (self : AdaptiveTokenPoller) (e : exn).

(** [await asyncio.sleep(seconds)] *)
Definition asyncio_sleep (env : poll_env) (self : AdaptiveTokenPoller)
    (consecutive_same_tokens seconds : Z) : iteration_outcome :=
  if sleep_cancelled env then Propagated self CancelledError
  else Slept self consecutive_same_tokens seconds.

(** The [try: ... except Exception as e: ...] statement of [_poll_loop]. *)
Definition loop_body (self : AdaptiveTokenPoller)
    (consecutive_same_tokens : Z) (env : poll_env) : iteration_outcome :=
  match fetch env with
  | Returned new_token =>
      let current_time := time_time env in
      let '(self', same) :=
        locked_update self consecutive_same_tokens new_token current_time in
      let next_interval :=
        _calculate_next_poll_interval (pattern self') same current_time in
      asyncio_sleep env self' same next_interval
  | Raised e =>
      if isinstance_Exception e then
        (* except Exception: await asyncio.sleep(30) *)
        asyncio_sleep env self consecutive_same_tokens 30
      else Propagated self e
  end.

(** [stop_polling(self)] *)
Definition stop_polling (self : AdaptiveTokenPoller) : AdaptiveTokenPoller :=
  {| current_token := current_token self;
     pattern := pattern self;
     polling_interval := polling_interval self;
     running := false |}.

(** What happens around the loop.  [self.running] is read in one place,
    the test of the [while]; the loop is suspended in the fetch and in the
    sleeps.
    - [stop_polling_called]: another task calls [stop_polling()] while the
      loop is suspended in a sleep (or has not run yet);
    - [resumed env]: the loop is resumed, tests [self.running] and goes
      through one iteration;
    - [stopped_in_fetch env]: the same, and another task calls
      [stop_polling()] while the loop is suspended in the fetch of that
      iteration; the rest of the iteration runs on the stopped poller. *)
Inductive loop_event :=
| stop_polling_called
| resumed (env : poll_env)
| stopped_in_fetch (env : poll_env).

(** Where the loop is once the events are used up.  [sleeps] records the
    durations of the sleeps that ran to their end, oldest first. *)
Inductive loop_outcome :=
| Exited (self : AdaptiveTokenPoller) (sleeps : list Z)
| Aborted (self : AdaptiveTokenPoller) (e : exn) (sleeps : list Z)
| Suspended (self : AdaptiveTokenPoller) (consecutive_same_tokens : Z)
            (sleeps : list Z).

(** [while self.running: ...] *)
Fixpoint while_running (self : AdaptiveTokenPoller)
    (consecutive_same_tokens : Z) (sleeps : list Z)
    (events : list loop_event) : loop_outcome :=
  match events with
  | [] => Suspended self consecutive_same_tokens sleeps
  | stop_polling_called :: events' =>
      while_running (stop_polling self) consecutive_same_tokens sleeps events'
  | resumed env :: events' =>
      if running self then
        match loop_body self consecutive_same_tokens env with
        | Slept self' same seconds =>
            while_running self' same (sleeps ++ [seconds]) events'
        | Propagated self' e => Aborted self' e sleeps
        end
      else Exited self sleeps
  | stopped_in_fetch env :: events' =>
      if running self then
        match loop_body (stop_polling self) consecutive_same_tokens env with
        | Slept self' same seconds =>
            while_running self' same (sleeps ++ [seconds]) events'
        | Propagated self' e => Aborted self' e sleeps
        end
      else Exited self sleeps
  end.

(** [_poll_loop(self)]: [consecutive_same_tokens = 0], then the loop. *)
Definition _poll_loop (self : AdaptiveTokenPoller) (events : list loop_event)
  : loop_outcome :=
  while_running self 0 [] events.

(** [start_polling(self)]: [self.running = True], then the task runs
    [_poll_loop]. *)
Definition start_polling (self : AdaptiveTokenPoller)
    (events : list loop_event) : loop_outcome :=
  _poll_loop {| current_token := current_token self;
                pattern := pattern self;
                polling_interval := polling_interval self;
                running := true |} events.

End Poller.

(** ** src/mcp_agent/llm/dynamic_key_provider.py *)

Module KeyProvider.

(** *** Python values decoded from a response body *)

(** A number: an [int], of any size, or a [float]. *)
Inductive number :=
| Int (n : Z)
| Float (x : Q).

(** What [response.json()] can return. *)
#[local] Unset Elimination Schemes.
Inductive json :=
| JNull                                   (* None *)
| JBool (b : bool)
| JNum (v : number)                       (* int or float *)
| JStr (s : string)
| JArr (items : list json)
| JObj (fields : gmap string json).       (* dict *)

(** [bool(v)], as tested by [if not api_key]. *)
Definition truthy (v : json) : bool :=
  match v with
  | JNull => false
  | JBool b => b
  | JNum (Int n) => negb (n =? 0)
  | JNum (Float x) => negb (Qeq_bool x (0 # 1))
  | JStr s => negb (String.eqb s EmptyString)
  | JArr items => negb (bool_decide (length items = 0%nat))
  | JObj fields => negb (bool_decide (size fields = 0%nat))
  end.

(** *** Exceptions and their messages *)

(** An f-string is kept as its pieces: literal text and the values
    interpolated between braces, left to right. *)
Inductive piece :=
| lit (text : string)
| val_str (s : string)
| val_int (n : Z)
| val_json (d : json)
| val_exn (e : exn)                       (* {str(e)} *)

(** The exceptions met inside [fetch_api_key].  [ProviderKeyError] is
    imported from [mcp_agent.core.exceptions]; it is built from its two
    positional arguments, [message] and [details], and, being an error
    class of the library, it is an [Exception] like the others here, which
    an [except Exception] clause matches.  The exception is
    [asyncio.CancelledError], thrown into the [await] at which the task is
    suspended when the task is cancelled: it derives from [BaseException]
    only. *)
with exn :=
| RequestError (cause : string)           (* httpx: connection, timeout *)
| HTTPStatusError (status_code : Z) (text : string)
| ValueError (msg : string)               (* body is not JSON *)
| TypeError
| AttributeError
| OverflowError                           (* int too large to convert to float *)
| ValidationError                         (* pydantic, from CachedApiKey(...) *)
| ProviderKeyError (message details : list piece)
| CancelledError.

#[local] Set Elimination Schemes.

Definition isinstance_Exception (e : exn) : bool :=
  match e with
  | CancelledError => false
  | _ => true
  end.

(** Statements that may raise: a value or the exception, sequenced with
    [x ← m; k]. *)
Definition raising (A : Type) : Type := exn + A.

#[export] Instance raising_ret : MRet raising := fun _ a => inr a.
#[export] Instance raising_bind : MBind raising := fun _ _ k m =>
  match m with
  | inl e => inl e
  | inr a => k a
  end.

Definition raise {A} (e : exn) : raising A := inl e.

(** [key in data] *)
Definition contains (key : string) (data : json) : raising bool :=
  match data with
  | JObj fields => inr (bool_decide (is_Some (fields !! key)))
  | JArr items =>
      inr (existsb (fun item => match item with
                                | JStr s => String.eqb key s
                                | _ => false
                                end) items)
  | JStr s =>   (* substring test *)
      inr (match String.index 0 key s with Some _ => true | None => false end)
  | JNull | JBool _ | JNum _ => inl TypeError
  end.

(** [data[key]], reached only after [key in data] held. *)
Definition subscript (data : json) (key : string) : raising json :=
  match data with
  | JObj fields => match fields !! key with
                   | Some v => inr v
                   | None => inl TypeError   (* KeyError; excluded by the test before *)
                   end
  | _ => inl TypeError   (* "token" found in a list or a str *)
  end.

(** [data.get(key, default)] *)
Definition dict_get (data : json) (key : string) (default : json) : raising json :=
  match data with
  | JObj fields => inr (match fields !! key with Some v => v | None => default end)
  | _ => inl AttributeError
  end.

(** The number a value stands for in [+] and [-]; [bool] is an [int]. *)
Definition as_number (v : json) : raising number :=
  match v with
  | JNum v => inr v
  | JBool b => inr (Int (if b then 1 else 0))
  | _ => inl TypeError
  end.

(** [a - v] for an int [a]: an int when [v] is one, else a float. *)
Definition int_minus (a : Z) (v : number) : number :=
  match v with
  | Int n => Int (a - n)
  | Float x => Float (inject_Z a - x)
  end.

(** [max(a, v)] for an int [a]: [v] only when [v > a]. *)
Definition py_max (a : Z) (v : number) : number :=
  match v with
  | Int n => if n >? a then Int n else Int a
  | Float x => if Qgtb x (inject_Z a) then Float x else Int a
  end.

(** The conversion of an int to a float: the ints that round to
    [2 ** 1024] or beyond, which are those from [2 ** 1024 - 2 ** 970] on
    in magnitude, raise [OverflowError]; below, the conversion is taken as
    exact. *)
Definition float_limit : Z := 2 ^ 1024 - 2 ^ 970.

Definition float_of_int (n : Z) : raising Q :=
  if float_limit <=? Z.abs n then raise OverflowError
  else mret (inject_Z n).

(** [t + v] for a float [t]: an int operand is converted to a float
    first. *)
Definition float_plus (t : Q) (v : number) : raising Q :=
  match v with
  | Int n => x ← float_of_int n; mret (t + x)%Q
  | Float x => mret (t + x)%Q
  end.

(** *** Configuration, cache entries, provider *)

(** [class DynamicKeyConfig(BaseModel)] *)
Record DynamicKeyConfig := {
  endpoint_url : string;
  cache_duration_seconds : Z;       (* default 1800 *)
  timeout_seconds : Z;              (* default 10 *)
  headers : option (gmap string string);
  auth_token : option string
}.

(** [class CachedApiKey(BaseModel)] *)
Record CachedApiKey := {
  key : string;
  expires_at : Q
}.

(** [CachedApiKey.is_expired]: [time.time() > self.expires_at], with the
    value of [time.time()] passed in. *)
Definition is_expired (self : CachedApiKey) (time_time : Q) : bool :=
  Qgtb time_time (expires_at self).

(** [CachedApiKey(key=api_key, expires_at=expires_at)]: the model validates
    its fields; of the values a JSON body can hold only a [str] is
    accepted for [key: str] (pydantic 2 does not turn numbers into
    strings). *)
Definition CachedApiKey_init (api_key : json) (expires_at : Q)
  : raising CachedApiKey :=
  match api_key with
  | JStr s => mret {| key := s; expires_at := expires_at |}
  | _ => raise ValidationError
  end.

(** [httpx.AsyncClient(headers=headers)] *)
Record AsyncClient := { client_headers : gmap string string }.

(** The attributes of [DynamicKeyProvider]; [self._lock] is treated with
    the tasks further down. *)
Record DynamicKeyProvider := {
  config : DynamicKeyConfig;
  _cache : gmap string CachedApiKey;
  _client : option AsyncClient
}.

(** [DynamicKeyProvider.__init__] *)
Definition __init__ (config : DynamicKeyConfig) : DynamicKeyProvider :=
  {| config := config; _cache := ∅; _client := None |}.

Definition with_cache (self : DynamicKeyProvider)
    (cache : gmap string CachedApiKey) : DynamicKeyProvider :=
  {| config := config self; _cache := cache; _client := _client self |}.

(** [_get_client(self)]: the client is created on first use.
    [self.config.headers or {}] is the configured dict itself when that
    is non-empty, so the [Authorization] entry is then written into the
    configuration as well. *)
Definition _get_client (self : DynamicKeyProvider) : DynamicKeyProvider :=
  match _client self with
  | Some _ => self
  | None =>
      let cfg := config self in
      let configured :=
        match headers cfg with
        | Some h => if bool_decide (size h = 0%nat) then None else Some h
        | None => None
        end in
      let bearer :=
        match auth_token cfg with
        | Some t => if String.eqb t EmptyString then None else Some ("Bearer " +:+ t)
        | None => None
        end in
      let hs := default ∅ configured in
      let hs' := match bearer with
                 | Some b => <["Authorization" := b]> hs
                 | None => hs
                 end in
      {| config := {| endpoint_url := endpoint_url cfg;
                      cache_duration_seconds := cache_duration_seconds cfg;
                      timeout_seconds := timeout_seconds cfg;
                      headers := match configured with
                                 | Some _ => Some hs'
                                 | None => headers cfg
                                 end;
                      auth_token := auth_token cfg |};
         _cache := _cache self;
         _client := Some {| client_headers := hs' |} |}
  end.

(** *** [fetch_api_key] *)

(** Lines 101-117: from the decoded body to the locals [api_key] and
    [expires_in]; [default] is [self.config.cache_duration_seconds]. *)
Definition handle_formats (default : Z) (data : json) : raising (json * json) :=
  let api_key := JNull in
  let expires_in := JNum (Int default) in
  has_token ← contains "token" data;
  if has_token : bool then
    api_key ← subscript data "token";
    has_age ← contains "age_seconds" data;
    if has_age : bool then
      age_seconds ← subscript data "age_seconds";
      let typical_refresh_interval := 1800 in
      age ← as_number age_seconds;
      let expires_in := JNum (py_max 60 (int_minus typical_refresh_interval age)) in
      mret (api_key, expires_in)
    else mret (api_key, expires_in)
  else
    has_api_key ← contains "api_key" data;
    if has_api_key : bool then
      api_key ← subscript data "api_key";
      expires_in ← dict_get data "expires_in" (JNum (Int default));
      mret (api_key, expires_in)
    else mret (api_key, expires_in).

(** The errors the method constructs. *)
Definition invalid_response (provider_name : string) (data : json) : exn :=
  ProviderKeyError
    [lit "Invalid response from key endpoint"]
    [lit "Endpoint did not return a token or api_key field for ";
     val_str provider_name; lit ". Response: "; val_json data].

Definition failed_to_fetch (provider_name : string) (status_code : Z)
    (text : string) : exn :=
  ProviderKeyError
    [lit "Failed to fetch API key for "; val_str provider_name]
    [lit "HTTP "; val_int status_code; lit ": "; val_str text].

Definition failed_to_connect (cfg : DynamicKeyConfig) (cause : string) : exn :=
  ProviderKeyError
    [lit "Failed to connect to key endpoint"]
    [lit "Could not reach "; val_str (endpoint_url cfg); lit ": "; val_str cause].

Definition unexpected_error (e : exn) : exn :=
  ProviderKeyError
    [lit "Unexpected error fetching API key"]
    [lit "Error: "; val_exn e].

(** What [await client.get(...)], [response.raise_for_status()] and
    [response.json()] amount to, seen from the method: one of them raises,
    or the body is decoded. *)
Inductive http_outcome :=
| http_raised (e : exn)
| http_json (data : json).

(** The statements of the [try] block after the client is there: they
    raise, or reach the assignment to [self._cache[provider_name]] with
    this entry.  [time_time] is the value of [time.time()] on line 126. *)
Definition try_block (self : DynamicKeyProvider) (provider_name : string)
    (response : http_outcome) (time_time : Q) : raising CachedApiKey :=
  data ← match response with
         | http_raised e => raise e
         | http_json data => mret data
         end;
  '(api_key, expires_in) ←
    handle_formats (cache_duration_seconds (config self)) data;
  if negb (truthy api_key) then raise (invalid_response provider_name data)
  else
    (* Calculate expiration *)
    lifetime ← as_number expires_in;
    expires_at ← float_plus time_time lifetime;
    (* Cache the key *)
    CachedApiKey_init api_key expires_at.

(** The three [except] clauses, tried in order: the exception that
    leaves the [try] statement.  What no clause matches goes through as it
    is. *)
Definition except_clauses (self : DynamicKeyProvider) (provider_name : string)
    (e : exn) : exn :=
  match e with
  | HTTPStatusError status_code text =>
      failed_to_fetch provider_name status_code text
  | RequestError cause => failed_to_connect (config self) cause
  | _ =>
      if isinstance_Exception e then unexpected_error e   (* except Exception *)
      else e
  end.

(** How a call ends. *)
Inductive result :=
| Return (api_key : string)
| Raise (e : exn).

(** Lines 78-82: the cached key when there is an entry and it has not
    expired at [time_time]. *)
Definition check_cache (self : DynamicKeyProvider) (provider_name : string)
    (time_time : Q) : option string :=
  match _cache self !! provider_name with
  | Some cached_key =>
      if negb (is_expired cached_key time_time) then Some (key cached_key)
      else None
  | None => None
  end.

(** Lines 85-151, from the moment the request has been answered. *)
Definition fetch_new_key (self : DynamicKeyProvider) (provider_name : string)
    (response : http_outcome) (time_time : Q) : result * DynamicKeyProvider :=
  match try_block self provider_name response time_time with
  | inr entry =>
      (Return (key entry),
       with_cache self (<[provider_name := entry]> (_cache self)))
  | inl e => (Raise (except_clauses self provider_name e), self)
  end.

(** What the environment supplies to one call. *)
Record call_env := {
  time_check : Q;               (* time.time() inside is_expired *)
  response : http_outcome;      (* the answer, if a request is sent *)
  time_store : Q                (* time.time() when expires_at is computed *)
}.

Record call_outcome := {
  returned : result;
  after : DynamicKeyProvider;
  requests : nat                (* GET requests sent during the call *)
}.

(** [fetch_api_key(self, provider_name)], run while no other task holds
    [self._lock]. *)
Definition fetch_api_key (self : DynamicKeyProvider) (provider_name : string)
    (env : call_env) : call_outcome :=
  match check_cache self provider_name (time_check env) with
  | Some api_key =>
      {| returned := Return api_key; after := self; requests := 0 |}
  | None =>
      let '(r, self') :=
        fetch_new_key (_get_client self) provider_name
                      (response env) (time_store env) in
      {| returned := r; after := self'; requests := 1 |}
  end.

(** [clear_cache(self, provider_name=None)] *)
Definition clear_cache (self : DynamicKeyProvider)
    (provider_name : option string) : DynamicKeyProvider :=
  match provider_name with
  | Some name =>
      if String.eqb name EmptyString then with_cache self ∅
      else with_cache self (delete name (_cache self))
  | None => with_cache self ∅
  end.

(** *** Tasks sharing one provider

    The coroutines of one event loop run one at a time and hand over
    control only at an [await] that suspends.  In [fetch_api_key] these
    are [async with self._lock] while another task holds the lock, and
    [await client.get(...)].  A call is thus made of two uninterrupted
    stretches: from taking the lock to the cache hit or to the request
    being sent, and from the answer to the release of the lock.  A task
    that is cancelled gets the [CancelledError] where it is suspended:
    before it has the lock, or in the request, where the error is one more
    thing [await client.get(...)] can raise. *)

Inductive task :=
| at_lock (provider_name : string)      (* not yet past async with self._lock *)
| in_flight (provider_name : string)    (* holds the lock, request sent *)
| finished (r : result).

Record system := {
  provider : DynamicKeyProvider;
  locked : bool;                        (* self._lock.locked() *)
  tasks : list task;
  sent : nat                            (* GET requests sent so far *)
}.

(** What the event loop does next: let task [i] take the lock, deliver
    the answer to the request of task [i], or cancel task [i] before it
    has taken the lock. *)
Inductive step :=
| enter (i : nat) (time_time : Q)
| answer (i : nat) (response : http_outcome) (time_time : Q)
| cancel (i : nat).

(** One step; [None] when the task cannot run (the lock is taken, or the
    task is not at that point). *)
Definition run_step (s : system) (st : step) : option system :=
  match st with
  | enter i time_time =>
      match tasks s !! i with
      | Some (at_lock provider_name) =>
          if locked s then None
          else
            match check_cache (provider s) provider_name time_time with
            | Some api_key =>
                Some {| provider := provider s;
                        locked := false;
                        tasks := <[i := finished (Return api_key)]> (tasks s);
                        sent := sent s |}
            | None =>
                Some {| provider := _get_client (provider s);
                        locked := true;
                        tasks := <[i := in_flight provider_name]> (tasks s);
                        sent := S (sent s) |}
            end
      | _ => None
      end
  | answer i response time_time =>
      match tasks s !! i with
      | Some (in_flight provider_name) =>
          let '(r, self') :=
            fetch_new_key (provider s) provider_name response time_time in
          Some {| provider := self';
                  locked := false;
                  tasks := <[i := finished r]> (tasks s);
                  sent := sent s |}
      | _ => None
      end
  | cancel i =>
      match tasks s !! i with
      | Some (at_lock provider_name) =>
          Some {| provider := provider s;
                  locked := locked s;
                  tasks := <[i := finished (Raise CancelledError)]> (tasks s);
                  sent := sent s |}
      | _ => None
      end
  end.

Fixpoint run (s : system) (steps : list step) : option system :=
  match steps with
  | [] => Some s
  | st :: steps' => s' ← run_step s st; run s' steps'
  end.

(** Two calls [fetch_api_key(provider_name)] started together. *)
Definition two_callers (self : DynamicKeyProvider) (provider_name : string)
  : system :=
  {| provider := self;
     locked := false;
     tasks := [at_lock provider_name; at_lock provider_name];
     sent := 0 |}.

(** [close(self)]: the client, if there is one, is closed and forgotten. *)
Definition close (self : DynamicKeyProvider) : DynamicKeyProvider :=
  match _client self with
  | Some _ => {| config := config self; _cache := _cache self; _client := None |}
  | None => self
  end.

(** Any number of calls started together, one per name. *)
Definition callers (self : DynamicKeyProvider) (names : list string) : system :=
  {| provider := self;
     locked := false;
     tasks := map at_lock names;
     sent := 0 |}.

End KeyProvider.

(** * Vocabulary of the design document *)

Module Design.
Import Poller.

(** A rotation is detected in an iteration when the credential source
    returns a value different from the one already known; the very first
    value fetched is not a rotation. *)
Definition rotation_detected (self : AdaptiveTokenPoller) (env : poll_env) : bool :=
  match current_token self, fetch env with
  | Some known, Returned new_token => negb (String.eqb new_token known)
  | _, _ => false
  end.

(** The poller an iteration leaves behind. *)
Definition poller_after (o : iteration_outcome) : AdaptiveTokenPoller :=
  match o with
  | Slept self _ _ => self
  | Propagated self _ => self
  end.

(** The poller as the loop has left it so far. *)
Definition poller_at (o : loop_outcome) : AdaptiveTokenPoller :=
  match o with
  | Exited self _ => self
  | Aborted self _ _ => self
  | Suspended self _ _ => self
  end.

(** A response of the credential source: the credential or a failure. *)
Inductive credential_response :=
| credential (value : string)
| failure (msg : string).

Definition fetch_of (r : credential_response) : fetch_outcome :=
  match r with
  | credential value => Returned value
  | failure msg => Raised (Exception msg)
  end.

(** The loop fed with a sequence of responses, each with the time at which
    it arrived; nobody stops or cancels the task. *)
Definition events_of (rs : list (credential_response * Q)) : list loop_event :=
  map (fun r => resumed {| fetch := fetch_of r.1;
                           time_time := r.2;
                           sleep_cancelled := false |}) rs.

(** The intervals between the rotations in a sequence of responses, in
    the order of the rotations: [known] is the credential last seen and
    [since] the time at which it was first seen. *)
Fixpoint rotation_intervals (known : option string) (since : Q)
    (rs : list (credential_response * Q)) : list Z :=
  match rs with
  | [] => []
  | (failure _, _) :: rs' => rotation_intervals known since rs'
  | (credential value, now) :: rs' =>
      match known with
      | None => rotation_intervals (Some value) now rs'
      | Some old =>
          if String.eqb value old then rotation_intervals known since rs'
          else int (now - since) :: rotation_intervals (Some value) now rs'
      end
  end.

Definition rotations_seen (rs : list (credential_response * Q)) : nat :=
  length (rotation_intervals None (0 # 1) rs).

(** A window after an append: the oldest entry goes when there are more
    than five. *)
Definition trimmed (l : list Z) : list Z := if len l >? 5 then tail l else l.

(** The last [n] elements of a list, in their order. *)
Definition most_recent {A} (n : nat) (l : list A) : list A :=
  drop (length l - n) l.

(** The sleep the next-interval policy prescribes, rule by rule; a rule
    applies only when those before it do not. *)
Inductive prescribed_sleep (p : TokenPattern) (same : Z) (now : Q) : Z -> Prop :=
| learned_far :
    3 <= confidence_level p -> refresh_intervals p <> [] ->
    (300 < average (refresh_intervals p) - (now - last_refresh_time p))%Q ->
    prescribed_sleep p same now 120
| learned_near :
    3 <= confidence_level p -> refresh_intervals p <> [] ->
    (120 < average (refresh_intervals p) - (now - last_refresh_time p))%Q ->
    (average (refresh_intervals p) - (now - last_refresh_time p) <= 300)%Q ->
    prescribed_sleep p same now 60
| learned_close :
    3 <= confidence_level p -> refresh_intervals p <> [] ->
    (average (refresh_intervals p) - (now - last_refresh_time p) <= 120)%Q ->
    prescribed_sleep p same now 30
| idle_lt_5 :
    ~ (3 <= confidence_level p /\ refresh_intervals p <> []) ->
    same < 5 ->
    prescribed_sleep p same now 30
| idle_lt_20 :
    ~ (3 <= confidence_level p /\ refresh_intervals p <> []) ->
    5 <= same < 20 ->
    prescribed_sleep p same now 60
| idle_lt_40 :
    ~ (3 <= confidence_level p /\ refresh_intervals p <> []) ->
    20 <= same < 40 ->
    prescribed_sleep p same now 120
| idle_ge_40 :
    ~ (3 <= confidence_level p /\ refresh_intervals p <> []) ->
    40 <= same ->
    prescribed_sleep p same now 300.

(** *** The key cache *)

Import KeyProvider.


(** The seconds a number stands for. *)
Definition seconds (v : number) : Q :=
  match v with
  | Int n => inject_Z n
  | Float x => x
  end.

(** A number a float can take: any float, and the ints below
    [2 ** 1024 - 2 ** 970] in magnitude. *)
Definition fits_float (v : number) : Prop :=
  match v with
  | Int n => Z.abs n < float_limit
  | Float _ => True
  end.



(** A call answered from the cache. *)
Definition cache_hit (self : DynamicKeyProvider) (api_key : string)
  : call_outcome :=
  {| returned := Return api_key; after := self; requests := 0 |}.

(** *** Tasks *)

Definition is_in_flight (t : task) : bool :=
  match t with
  | in_flight _ => true
  | _ => false
  end.

(** Number of requests in flight. *)
Fixpoint in_flight_count (ts : list task) : nat :=
  match ts with
  | [] => 0%nat
  | t :: ts' => ((if is_in_flight t then 1 else 0) + in_flight_count ts')%nat
  end.

(** The lock is held exactly while one request is in flight. *)
Definition lock_invariant (s : system) : Prop :=
  in_flight_count (tasks s) = if locked s then 1%nat else 0%nat.

(** A step that cancels a caller waiting for the lock. *)
Definition is_cancel (st : step) : bool :=
  match st with
  | cancel _ => true
  | _ => false
  end.

End Design.

(** * Concrete inputs used below *)

Module Examples.
Import KeyProvider.

(** A poller that has seen two rotations, 100 seconds apart. *)
Definition knows_two_intervals : Poller.AdaptiveTokenPoller :=
  {| Poller.current_token := Some "a";
     Poller.pattern := {| Poller.refresh_intervals := [100; 100];
                          Poller.last_refresh_time := 1000 # 1;
                          Poller.confidence_level := 0 |};
     Poller.polling_interval := 30;
     Poller.running := true |}.

(** A poller that has seen one token, at time 1000, and the iteration in
    which it sees the next one, at time 1100. *)
Definition knows_one_token : Poller.AdaptiveTokenPoller :=
  {| Poller.current_token := Some "a";
     Poller.pattern := {| Poller.refresh_intervals := [];
                          Poller.last_refresh_time := 1000 # 1;
                          Poller.confidence_level := 0 |};
     Poller.polling_interval := 30;
     Poller.running := true |}.

Definition first_rotation : Poller.poll_env :=
  {| Poller.fetch := Poller.Returned "b";
     Poller.time_time := 1100 # 1;
     Poller.sleep_cancelled := false |}.

(** A provider with the default durations, its cache empty or holding an
    entry that expired at time 500. *)
Definition local_endpoint : DynamicKeyConfig :=
  {| endpoint_url := "http://localhost:8000";
     cache_duration_seconds := 1800;
     timeout_seconds := 10;
     headers := None;
     auth_token := None |}.

Definition cold : DynamicKeyProvider := __init__ local_endpoint.

Definition stale : DynamicKeyProvider :=
  with_cache cold {[ "anthropic" := {| key := "old"; expires_at := 500 # 1 |} ]}.

(** A call during which the clock reads [t] throughout. *)
Definition at_time (t : Z) (r : http_outcome) : call_env :=
  {| time_check := inject_Z t; response := r; time_store := inject_Z t |}.

(** Response bodies: [{"unexpected": "field"}], a [token] that is the
    empty string,
    [{"token": "abc"}], [{"api_key": "xyz", "expires_in": 120}]. *)
Definition unexpected_fields : gmap string json := {[ "unexpected" := JStr "field" ]}.
Definition empty_token_fields : gmap string json := {[ "token" := JStr EmptyString ]}.
Definition token_fields : gmap string json := {[ "token" := JStr "abc" ]}.
Definition api_key_fields : gmap string json :=
  {[ "api_key" := JStr "xyz"; "expires_in" := JNum (Int 120) ]}.

Definition unavailable : exn := HTTPStatusError 503 "Service Unavailable".

(** Two callers on [cold]: the request of the first is answered with a
    503, the second then sends its own. *)
Definition run_after_failure : list step :=
  [enter 0 (1000 # 1); answer 0 (http_raised unavailable) (1001 # 1);
   enter 1 (1001 # 1); answer 1 (http_json (JObj token_fields)) (1002 # 1)].

(** Two callers on [cold]: both requests succeed, but the key of the first
    answer comes with [expires_in = 0] and has expired when the second
    caller enters. *)
Definition short_lived (api_key : string) : gmap string json :=
  {[ "api_key" := JStr api_key; "expires_in" := JNum (Int 0) ]}.

Definition run_after_short_lived : list step :=
  [enter 0 (1000 # 1); answer 0 (http_json (JObj (short_lived "k1"))) (1001 # 1);
   enter 1 (1002 # 1); answer 1 (http_json (JObj (short_lived "k2"))) (1003 # 1)].

(** Two callers on [cold]: the first is answered with a key valid for 120
    seconds, the second enters a second later. *)
Definition run_after_success : list step :=
  [enter 0 (1000 # 1); answer 0 (http_json (JObj api_key_fields)) (1001 # 1);
   enter 1 (1002 # 1)].

(** The system that run leaves behind. *)
Definition served_once : system :=
  {| provider :=
       with_cache (_get_client cold)
         {[ "anthropic" := {| key := "xyz";
                              expires_at := (1001 # 1) + (120 # 1) |} ]};
     locked := false;
     tasks := [finished (Return "xyz"); finished (Return "xyz")];
     sent := 1 |}.

End Examples.

(** ** examples/dynamic_api_key_server.py: the snapshot and the endpoints *)

Module Server.

(** The dict [get_current_token] returns, a field per key. *)
Record token_info := {
  token : string;
  last_refresh : Q;
  age_seconds : Q;
  confidence_level : Z;
  refresh_intervals : list Z;
  polling_interval : Z
}.

(** [get_current_token(self)]; [time_time] is the value of [time.time()].
    [not self.current_token] holds for [None] and for the empty string. *)
Definition get_current_token (self : Poller.AdaptiveTokenPoller) (time_time : Q)
  : Poller.exn + token_info :=
  match Poller.current_token self with
  | None => inl (Poller.Exception "No token available yet")
  | Some current_token =>
      if String.eqb current_token EmptyString
      then inl (Poller.Exception "No token available yet")
      else
        let pattern := Poller.pattern self in
        inr {| token := current_token;
               last_refresh := Poller.last_refresh_time pattern;
               age_seconds := (time_time - Poller.last_refresh_time pattern)%Q;
               confidence_level := Poller.confidence_level pattern;
               refresh_intervals := Poller.refresh_intervals pattern;
               polling_interval := Poller.polling_interval self |}
  end.

(** ["adaptive" if confidence_level >= 3 else "discovery"] *)
Definition strategy (confidence_level : Z) : string :=
  if confidence_level >=? 3 then "adaptive" else "discovery".

(** The dict of [GET /anthropic] and its ["metadata"]. *)
Record anthropic_metadata := {
  meta_confidence_level : Z;
  meta_age_seconds : Q;
  meta_last_refresh : Q;
  polling_strategy : string
}.

Record anthropic_token := {
  api_key : string;
  expires_in : KeyProvider.number;         (* the int 60 or a float *)
  provider : string;
  type : string;
  metadata : anthropic_metadata
}.

(** [get_anthropic_token()] on the poller [self]. *)
Definition get_anthropic_token (self : Poller.AdaptiveTokenPoller) (time_time : Q)
  : Poller.exn + anthropic_token :=
  match get_current_token self time_time with
  | inl e => inl e
  | inr token_info =>
      inr {| api_key := token token_info;
             expires_in :=
               KeyProvider.py_max 60
                 (KeyProvider.int_minus 1800
                    (KeyProvider.Float (age_seconds token_info)));
             provider := "anthropic";
             type := "vertex_ai_token";
             metadata :=
               {| meta_confidence_level := confidence_level token_info;
                  meta_age_seconds := age_seconds token_info;
                  meta_last_refresh := last_refresh token_info;
                  polling_strategy := strategy (confidence_level token_info) |} |}
  end.

(** The dict of [GET /stats]. *)
Record stats := {
  pattern_confidence : Z;
  observed_intervals : list Z;
  average_interval : option Q;
  stats_last_refresh : Q;
  current_age : Q;
  current_polling_strategy : string
}.

(** [get_stats()] on the poller [self]; a float is falsy when it is zero. *)
Definition get_stats (self : Poller.AdaptiveTokenPoller) (time_time : Q) : stats :=
  let pattern := Poller.pattern self in
  {| pattern_confidence := Poller.confidence_level pattern;
     observed_intervals := Poller.refresh_intervals pattern;
     average_interval :=
       if bool_decide (Poller.refresh_intervals pattern = []) then None
       else Some (Poller.average (Poller.refresh_intervals pattern));
     stats_last_refresh := Poller.last_refresh_time pattern;
     current_age :=
       if Qeq_bool (Poller.last_refresh_time pattern) (0 # 1) then (0 # 1)%Q
       else (time_time - Poller.last_refresh_time pattern)%Q;
     current_polling_strategy := strategy (Poller.confidence_level pattern) |}.

(** [force_poll()]: the dict returned, or the exception that is not an
    [Exception].  The poller is not touched. *)
Inductive forced :=
| forced_key (api_key : string)           (* {"api_key": ..., "forced": True} *)
| forced_error (error : string).          (* {"error": str(e)} *)

Definition force_poll (fetch : Poller.fetch_outcome) : Poller.exn + forced :=
  match fetch with
  | Poller.Returned new_token => inr (forced_key new_token)
  | Poller.Raised (Poller.Exception msg) => inr (forced_error msg)
  | Poller.Raised e => inl e
  end.

(** The dict of [GET /health]. *)
Inductive health :=
| healthy (has_token : bool) (token_age : Q) (last_refresh : Q)
| unhealthy (error : string).

(** [health_check()] on the poller [self]; [except Exception as e] turns
    the exception into the report [{"status": "unhealthy", "error": str(e)}]. *)
Definition health_check (self : Poller.AdaptiveTokenPoller) (time_time : Q)
  : Poller.exn + health :=
  match get_current_token self time_time with
  | inr token_info =>
      inr (healthy (negb (String.eqb (token token_info) EmptyString))
                   (age_seconds token_info) (last_refresh token_info))
  | inl (Poller.Exception msg) => inr (unhealthy msg)
  | inl e => inl e
  end.

(** The part of [lifespan] after the [yield]: [poller.stop_polling()],
    [task.cancel()], then [await task] inside [try ... except
    asyncio.CancelledError: pass].  Awaiting a task that has ended returns,
    or raises what the task ended with; [task] says how the polling task
    has ended, if it has. *)
Inductive shutdown :=
| shut_down
| shutdown_raised (e : Poller.exn)
| not_yet.

Definition await_task (task : Poller.loop_outcome) : shutdown :=
  match task with
  | Poller.Exited _ _ => shut_down
  | Poller.Aborted _ e _ => shutdown_raised e
  | Poller.Suspended _ _ _ => not_yet
  end.

Definition lifespan_shutdown (task : Poller.loop_outcome) : shutdown :=
  match await_task task with
  | shutdown_raised Poller.CancelledError => shut_down
  | ended => ended
  end.

(** An iteration cut short by [task.cancel()]: the [CancelledError] is
    thrown into the [await] the task is suspended at, the fetch or one of
    the two sleeps. *)
Definition cancelled (env : Poller.poll_env) : bool :=
  match Poller.fetch env with
  | Poller.Raised Poller.CancelledError => true
  | _ => Poller.sleep_cancelled env
  end.

(** [lifespan(app)]: the task is started, the application is served while
    the loop goes through [serving], and the shutdown finds the task in the
    iteration [last]. *)
Definition lifespan (self : Poller.AdaptiveTokenPoller)
    (serving : list Poller.loop_event) (last : Poller.poll_env) : shutdown :=
  lifespan_shutdown (Poller.start_polling self (serving ++ [Poller.resumed last])).

(** The bodies the two token endpoints send for the dicts returned, as
    [response.json()] decodes them on the other side. *)
Definition numbers (l : list Z) : list KeyProvider.json :=
  map (fun n => KeyProvider.JNum (KeyProvider.Int n)) l.

Definition root_body (info : token_info) : KeyProvider.json :=
  KeyProvider.JObj
    {[ "token" := KeyProvider.JStr (token info);
       "last_refresh" := KeyProvider.JNum (KeyProvider.Float (last_refresh info));
       "age_seconds" := KeyProvider.JNum (KeyProvider.Float (age_seconds info));
       "confidence_level" := KeyProvider.JNum (KeyProvider.Int (confidence_level info));
       "refresh_intervals" := KeyProvider.JArr (numbers (refresh_intervals info));
       "polling_interval" := KeyProvider.JNum (KeyProvider.Int (polling_interval info)) ]}.

Definition anthropic_body (a : anthropic_token) : KeyProvider.json :=
  KeyProvider.JObj
    {[ "api_key" := KeyProvider.JStr (api_key a);
       "expires_in" := KeyProvider.JNum (expires_in a);
       "provider" := KeyProvider.JStr (provider a);
       "type" := KeyProvider.JStr (type a);
       "metadata" :=
         KeyProvider.JObj
           {[ "confidence_level" :=
                KeyProvider.JNum
                  (KeyProvider.Int (meta_confidence_level (metadata a)));
              "age_seconds" :=
                KeyProvider.JNum (KeyProvider.Float (meta_age_seconds (metadata a)));
              "last_refresh" :=
                KeyProvider.JNum (KeyProvider.Float (meta_last_refresh (metadata a)));
              "polling_strategy" :=
                KeyProvider.JStr (polling_strategy (metadata a)) ]} ]}.

End Server.

(** * Vocabulary for runs and sessions *)

Module Usage.
Import KeyProvider.

(** The sleeps a run of the loop has gone through. *)
Definition sleeps_of (o : Poller.loop_outcome) : list Z :=
  match o with
  | Poller.Exited _ sleeps => sleeps
  | Poller.Aborted _ _ sleeps => sleeps
  | Poller.Suspended _ _ sleeps => sleeps
  end.

(** An event at which the loop tests [self.running]. *)
Definition tests_running (ev : Poller.loop_event) : bool :=
  match ev with
  | Poller.stop_polling_called => false
  | _ => true
  end.

(** The credential the source returned last, and the time at which the
    credential known after the responses was first seen. *)
Definition last_credential (rs : list (Design.credential_response * Q))
  : option string :=
  last (omap (fun r => match r.1 with
                       | Design.credential value => Some value
                       | Design.failure _ => None
                       end) rs).

(** What a user does with a provider: fetch a key, clear the cache, close. *)
Inductive operation :=
| fetch_op (provider_name : string) (env : call_env)
| clear_op (provider_name : option string)
| close_op.

(** A session: the operations one after the other.  The outcomes of the
    fetches are collected in order. *)
Fixpoint session (self : DynamicKeyProvider) (ops : list operation)
  : DynamicKeyProvider * list call_outcome :=
  match ops with
  | [] => (self, [])
  | fetch_op provider_name env :: ops' =>
      let out := fetch_api_key self provider_name env in
      let '(self', outs) := session (after out) ops' in
      (self', out :: outs)
  | clear_op provider_name :: ops' => session (clear_cache self provider_name) ops'
  | close_op :: ops' => session (close self) ops'
  end.

(** No cached key is the empty string. *)
Definition keys_nonempty (self : DynamicKeyProvider) : Prop :=
  forall provider_name entry,
    _cache self !! provider_name = Some entry -> key entry <> EmptyString.

Definition is_at_lock (t : task) : bool :=
  match t with
  | at_lock _ => true
  | _ => false
  end.

(** Number of callers that have not taken the lock yet. *)
Fixpoint at_lock_count (ts : list task) : nat :=
  match ts with
  | [] => 0%nat
  | t :: ts' => ((if is_at_lock t then 1 else 0) + at_lock_count ts')%nat
  end.

(** Every request sent belongs to a caller that has left the lock queue. *)
Definition requests_accounted (s : system) : Prop :=
  (sent s + at_lock_count (tasks s) <= length (tasks s))%nat.

(** [isinstance(data, dict)] *)
Definition is_dict (data : json) : bool :=
  match data with
  | JObj _ => true
  | _ => false
  end.

(** Confidence is never negative, and is positive only over a window of at
    least three intervals. *)
Definition confidence_grounded (self : Poller.AdaptiveTokenPoller) : Prop :=
  0 <= Poller.confidence_level (Poller.pattern self) /\
  (0 < Poller.confidence_level (Poller.pattern self) ->
   (3 <= length (Poller.refresh_intervals (Poller.pattern self)))%nat).

End Usage.

(** * More concrete inputs *)

Module MoreExamples.
Import KeyProvider Usage Examples.

(** Bodies: a list holding the string ["token"]; a token seen 1700 seconds
    ago; a key whose [expires_in] is [null]. *)
Definition list_body : json := JArr [JStr "token"].

Definition aged_token_fields : gmap string json :=
  {[ "token" := JStr "abc"; "age_seconds" := JNum (Int 1700) ]}.

Definition null_lifetime_fields : gmap string json :=
  {[ "api_key" := JStr "xyz"; "expires_in" := JNull ]}.

(** A key whose [expires_in] is the int [10 ** 400]. *)
Definition huge_lifetime_fields : gmap string json :=
  {[ "api_key" := JStr "xyz"; "expires_in" := JNum (Int (10 ^ 400)) ]}.

(** A provider whose client exists, and a session on it that never closes. *)
Definition with_client : DynamicKeyProvider := _get_client cold.

Definition busy_session : list operation :=
  [fetch_op "anthropic" (at_time 1000 (http_json (JObj token_fields)));
   clear_op None;
   fetch_op "openai" (at_time 1001 (http_raised unavailable))].

(** What [get_current_token] returns at time 1100 for the poller that has
    seen the token ["a"] at time 1000. *)
Definition served_info : Server.token_info :=
  {| Server.token := "a";
     Server.last_refresh := 1000 # 1;
     Server.age_seconds := 100 # 1;
     Server.confidence_level := 0;
     Server.refresh_intervals := [];
     Server.polling_interval := 30 |}.

(** A shutdown that finds the loop in its sleep after a failed fetch. *)
Definition cancelled_in_fallback_sleep : Poller.poll_env :=
  {| Poller.fetch := Poller.Raised (Poller.Exception "Helix CLI failed");
     Poller.time_time := 1100 # 1;
     Poller.sleep_cancelled := true |}.

End MoreExamples.

(** * Proofs *)

(** ** The poller *)

Section PollerFacts.
Import Poller Design Examples.

#[local] Arguments _update_pattern : simpl never.
#[local] Arguments _calculate_next_poll_interval : simpl never.

Lemma Qltb_lt (a b : Q) : Qltb a b = true <-> (a < b)%Q.
Proof.
  unfold Qltb. rewrite negb_true_iff, <- not_true_iff_false, Qle_bool_iff.
  split; [apply Qnot_le_lt | apply Qlt_not_le].
Qed.

Lemma Qltb_ge (a b : Q) : Qltb a b = false <-> (b <= a)%Q.
Proof.
  unfold Qltb. rewrite negb_false_iff. apply Qle_bool_iff.
Qed.

(** The window after [_update_pattern]. *)
Lemma update_pattern_window p x :
  refresh_intervals (_update_pattern p x) = trimmed (refresh_intervals p ++ [int x]).
Proof. reflexivity. Qed.

Lemma update_pattern_confidence p x :
  let window := refresh_intervals (_update_pattern p x) in
  let c := confidence_level p in
  let c' := confidence_level (_update_pattern p x) in
  (3 <= len window -> (variance window < 100 # 1)%Q -> c' = c + 1) /\
  (3 <= len window -> ~ (variance window < 100 # 1)%Q -> c' = Z.max 0 (c - 1)) /\
  (len window < 3 -> c' = c).
Proof.
  cbn zeta. rewrite update_pattern_window. unfold _update_pattern. cbn [confidence_level].
  fold (trimmed (refresh_intervals p ++ [int x])).
  set (w := trimmed _).
  destruct (Z.geb_spec (len w) 3) as [Hge|Hlt].
  - destruct (Qltb (variance w) (100 # 1)) eqn:Hv.
    + apply Qltb_lt in Hv. repeat split; intros; try lia; tauto.
    + apply Qltb_ge in Hv. repeat split; intros; try lia.
      exfalso. eapply Qlt_not_le; eauto.
  - repeat split; intros; lia.
Qed.

Lemma most_recent_short {A} n (l : list A) : (length l <= n)%nat -> most_recent n l = l.
Proof. intros H. unfold most_recent. replace (length l - n)%nat with 0%nat by lia. done. Qed.

Lemma most_recent_length {A} n (l : list A) : length (most_recent n l) = Nat.min n (length l).
Proof. unfold most_recent. rewrite length_drop. lia. Qed.

Lemma trimmed_most_recent (hist : list Z) x :
  trimmed (most_recent 5 hist ++ [x]) = most_recent 5 (hist ++ [x]).
Proof.
  unfold trimmed, len. rewrite length_app, most_recent_length. cbn [length].
  destruct (le_lt_dec (length hist) 4) as [Hs|Hl].
  - rewrite (most_recent_short 5 hist) by lia.
    rewrite (most_recent_short 5 (hist ++ [x])) by (rewrite length_app; cbn; lia).
    destruct (Z.gtb_spec (Z.of_nat (Nat.min 5 (length hist) + 1)) 5); [lia | done].
  - destruct (Z.gtb_spec (Z.of_nat (Nat.min 5 (length hist) + 1)) 5); [|lia].
    unfold most_recent. rewrite length_app. cbn [length].
    replace (length hist + 1 - 5)%nat with (length hist - 5 + 1)%nat by lia.
    rewrite drop_app_le by lia.
    rewrite <- drop_drop.
    destruct (drop (length hist - 5) hist) eqn:E.
    + apply (f_equal length) in E. rewrite length_drop in E. cbn in E. lia.
    + done.
Qed.

Lemma locked_update_same self same v now :
  current_token self = Some v ->
  locked_update self same v now = (self, same + 1).
Proof.
  intros H. unfold locked_update. rewrite H.
  by rewrite bool_decide_eq_false_2 by (intros ?; congruence).
Qed.

Lemma locked_update_first self same v now :
  current_token self = None ->
  locked_update self same v now =
    ({| current_token := Some v;
        pattern := {| refresh_intervals := refresh_intervals (pattern self);
                      last_refresh_time := now;
                      confidence_level := confidence_level (pattern self) |};
        polling_interval := polling_interval self;
        running := running self |}, 0).
Proof.
  intros H. unfold locked_update. rewrite H.
  by rewrite bool_decide_eq_true_2 by (intros ?; congruence).
Qed.

Lemma locked_update_rotation self same old v now :
  current_token self = Some old -> v <> old ->
  locked_update self same v now =
    (let pat := _update_pattern (pattern self)
                  (now - last_refresh_time (pattern self))%Q in
     {| current_token := Some v;
        pattern := {| refresh_intervals := refresh_intervals pat;
                      last_refresh_time := now;
                      confidence_level := confidence_level pat |};
        polling_interval := polling_interval self;
        running := running self |}, 0).
Proof.
  intros H Hne. unfold locked_update. rewrite H.
  by rewrite bool_decide_eq_true_2 by (intros ?; congruence).
Qed.

(** One iteration on a response, from a poller whose window holds the five
    most recent entries of a history [hist]: the iteration ends in a sleep,
    and the window follows the history extended by the interval of the
    rotation, if there was one. *)
Lemma iteration_on_response self same r now hist :
  refresh_intervals (pattern self) = most_recent 5 hist ->
  exists self1 same1 seconds observed,
    loop_body self same {| fetch := fetch_of r; time_time := now;
                           sleep_cancelled := false |} =
      Slept self1 same1 seconds /\
    running self1 = running self /\
    refresh_intervals (pattern self1) = most_recent 5 (hist ++ observed) /\
    (forall rs,
        rotation_intervals (current_token self)
          (last_refresh_time (pattern self)) ((r, now) :: rs) =
        observed ++ rotation_intervals (current_token self1)
                      (last_refresh_time (pattern self1)) rs) /\
    (forall msg, r = failure msg -> seconds = 30).
Proof.
  intros Hwin. unfold loop_body, asyncio_sleep.
  cbn [fetch time_time sleep_cancelled].
  destruct r as [v|msg]; cbn [fetch_of isinstance_Exception].
  - destruct (current_token self) as [old|] eqn:Htok.
    + destruct (String.eqb_spec v old) as [->|Hne].
      * rewrite (locked_update_same _ _ _ _ Htok).
        eexists self, _, _, []. rewrite app_nil_r, Htok.
        repeat split; try done.
        intros rs. cbn. by rewrite String.eqb_refl.
      * rewrite (locked_update_rotation _ _ _ _ _ Htok Hne). cbn zeta.
        eexists _, _, _, [int (now - last_refresh_time (pattern self))].
        split; [done|]. split; [done|]. split; [|split; [|done]].
        -- cbn [pattern refresh_intervals].
           rewrite update_pattern_window, Hwin. apply trimmed_most_recent.
        -- intros rs. cbn [rotation_intervals].
           by destruct (String.eqb_spec v old).
    + rewrite (locked_update_first _ _ _ _ Htok).
      eexists _, _, _, []. rewrite app_nil_r.
      repeat split; try done.
  - eexists self, same, 30, []. rewrite app_nil_r. repeat split; try done.
Qed.

(** The loop on a sequence of responses. *)
Lemma loop_on_responses rs : forall self same sleeps hist,
  running self = true ->
  refresh_intervals (pattern self) = most_recent 5 hist ->
  exists self' same' new,
    while_running self same sleeps (events_of rs) =
      Suspended self' same' (sleeps ++ new) /\
    running self' = true /\
    refresh_intervals (pattern self') =
      most_recent 5 (hist ++ rotation_intervals (current_token self)
                                (last_refresh_time (pattern self)) rs) /\
    length new = length rs /\
    (forall i msg t, rs !! i = Some (failure msg, t) -> new !! i = Some 30).
Proof.
  induction rs as [|[r now] rs IH]; intros self same sleeps hist Hrun Hwin.
  - exists self, same, []. cbn. rewrite !app_nil_r. repeat split; try done.
  - destruct (iteration_on_response self same r now hist Hwin)
      as (self1 & same1 & seconds & observed & Hbody & Hrun1 & Hwin1 & Hobs & H30).
    destruct (IH self1 same1 (sleeps ++ [seconds]) (hist ++ observed))
      as (self' & same' & new & Hloop & Hrun' & Hwin' & Hlen & Hfail);
      [congruence | done |].
    exists self', same', (seconds :: new).
    cbn [events_of map while_running fst snd]. fold (events_of rs).
    rewrite Hrun, Hbody, Hloop, <- (app_assoc sleeps).
    split; [done|]. split; [done|].
    rewrite Hobs, app_assoc. split; [done|]. split; [cbn; lia|].
    intros [|i] msg t; cbn; [|apply Hfail].
    intros [= -> _]. by rewrite (H30 msg).
Qed.

Lemma trimmed_length l x :
  (length l <= 5)%nat -> (length (trimmed (l ++ [x])) <= 5)%nat.
Proof.
  intros Hl. unfold trimmed, len.
  destruct (Z.gtb_spec (Z.of_nat (length (l ++ [x]))) 5) as [Hgt|Hle].
  - destruct l as [|y l]; cbn in *; [lia|]. rewrite length_app. cbn. lia.
  - rewrite length_app in Hle |- *. cbn in *. lia.
Qed.

Lemma loop_body_window self same env :
  (length (refresh_intervals (pattern self)) <= 5)%nat ->
  (length (refresh_intervals (pattern (poller_after (loop_body self same env))))
   <= 5)%nat.
Proof.
  intros Hl. unfold loop_body, asyncio_sleep, locked_update.
  destruct (fetch env) as [v|e].
  - case_bool_decide.
    + destruct (current_token self); destruct (sleep_cancelled env); cbn;
        try done; rewrite update_pattern_window; by apply trimmed_length.
    + by destruct (sleep_cancelled env).
  - by destruct (isinstance_Exception e), (sleep_cancelled env).
Qed.

(** Stops and cancellations included, the window never exceeds five. *)
Lemma while_running_window events : forall self same sleeps,
  (length (refresh_intervals (pattern self)) <= 5)%nat ->
  (length (refresh_intervals
             (pattern (poller_at (while_running self same sleeps events))))
   <= 5)%nat.
Proof.
  induction events as [|[|env|env] events IH]; intros self same sleeps Hl; cbn.
  - done.
  - by apply IH.
  - destruct (running self); [|done].
    pose proof (loop_body_window self same env Hl) as Hbody.
    destruct (loop_body self same env); [by apply IH | done].
  - destruct (running self); [|done].
    pose proof (loop_body_window (stop_polling self) same env Hl) as Hbody.
    destruct (loop_body (stop_polling self) same env); [by apply IH | done].
Qed.

Lemma loop_body_propagates self same env self' e :
  loop_body self same env = Propagated self' e -> e = CancelledError.
Proof.
  unfold loop_body, asyncio_sleep.
  destruct (fetch env) as [v|[msg|]]; cbn.
  - destruct (locked_update _ _ _ _). destruct (sleep_cancelled env); congruence.
  - destruct (sleep_cancelled env); congruence.
  - congruence.
Qed.

Lemma while_running_aborts events : forall self same sleeps self' e sleeps',
  while_running self same sleeps events = Aborted self' e sleeps' ->
  e = CancelledError.
Proof.
  induction events as [|[|env|env] events IH]; intros self same sleeps self' e sleeps'; cbn.
  - discriminate.
  - apply IH.
  - destruct (running self); [|discriminate].
    destruct (loop_body self same env) as [self1 same1 s|self1 e1] eqn:Hbody.
    + apply IH.
    + intros [= <- <- <-]. eapply loop_body_propagates, Hbody.
  - destruct (running self); [|discriminate].
    destruct (loop_body (stop_polling self) same env)
      as [self1 same1 s|self1 e1] eqn:Hbody.
    + apply IH.
    + intros [= <- <- <-]. eapply loop_body_propagates, Hbody.
Qed.

Lemma prescribed_sleep_unique p same now s1 s2 :
  prescribed_sleep p same now s1 -> prescribed_sleep p same now s2 -> s1 = s2.
Proof.
  intros H1 H2.
  destruct H1; destruct H2; try reflexivity; try tauto; try lia; exfalso;
    match goal with
    | Hlt : (?b < ?r)%Q, Hle : (?r <= ?a)%Q |- _ =>
        apply (Qlt_irrefl r), (Qle_lt_trans _ a); [exact Hle|];
        apply (Qle_lt_trans _ b); [unfold Qle; cbn; lia | exact Hlt]
    end.
Qed.

Lemma calculated_sleep_prescribed p same now :
  prescribed_sleep p same now (_calculate_next_poll_interval p same now).
Proof.
  unfold _calculate_next_poll_interval, Qgtb.
  destruct (Z.geb_spec (confidence_level p) 3) as [Hc|Hc]; cbn [andb].
  - case_bool_decide as Hw; cbn [negb].
    + assert (~ (3 <= confidence_level p /\ refresh_intervals p <> [])) by tauto.
      destruct (Z.ltb_spec same 5); [by apply idle_lt_5|].
      destruct (Z.ltb_spec same 20); [by apply idle_lt_20|].
      destruct (Z.ltb_spec same 40); [by apply idle_lt_40|].
      by apply idle_ge_40.
    + destruct (Qltb (300 # 1) _) eqn:H300.
      { apply Qltb_lt in H300. by apply learned_far. }
      apply Qltb_ge in H300.
      destruct (Qltb (120 # 1) _) eqn:H120.
      { apply Qltb_lt in H120. by apply learned_near. }
      apply Qltb_ge in H120. by apply learned_close.
  - assert (~ (3 <= confidence_level p /\ refresh_intervals p <> [])) by lia.
    destruct (Z.ltb_spec same 5); [by apply idle_lt_5|].
    destruct (Z.ltb_spec same 20); [by apply idle_lt_20|].
    destruct (Z.ltb_spec same 40); [by apply idle_lt_40|].
    by apply idle_ge_40.
Qed.

(** C1, as amended.  Confidence moves only in an iteration that detects a
    rotation, and then only when the window, after the new interval has
    been appended and the oldest one evicted, holds at least three samples:
    up by exactly 1 (no cap) when the population variance of the window is
    below 100, otherwise down by 1 but not below 0.  With fewer than three
    samples in the window confidence stays as it is; so it does in every
    iteration without a rotation (first fetch, same token, failure of the
    credential source, cancellation) and in [stop_polling]. *)
Theorem confidence_changes_with_full_window
    (self : AdaptiveTokenPoller) (same : Z) (env : poll_env) :
  let self' := poller_after (loop_body self same env) in
  let c := confidence_level (pattern self) in
  let c' := confidence_level (pattern self') in
  let window := refresh_intervals (pattern self') in
  confidence_level (pattern (stop_polling self)) = c /\
  if rotation_detected self env then
    window = trimmed (refresh_intervals (pattern self) ++
                      [int (time_time env - last_refresh_time (pattern self))]) /\
    (3 <= len window -> (variance window < 100 # 1)%Q -> c' = c + 1) /\
    (3 <= len window -> ~ (variance window < 100 # 1)%Q -> c' = Z.max 0 (c - 1)) /\
    (len window < 3 -> c' = c)
  else c' = c.
Proof.
  cbn zeta. split; [done|].
  unfold rotation_detected, loop_body, asyncio_sleep.
  destruct (fetch env) as [v|e].
  - destruct (current_token self) as [old|] eqn:Htok.
    + destruct (String.eqb_spec v old) as [->|Hne]; cbn [negb].
      * rewrite (locked_update_same _ _ _ _ Htok). by destruct (sleep_cancelled env).
      * rewrite (locked_update_rotation _ _ _ _ _ Htok Hne). cbn zeta.
        assert (forall o1 o2 : iteration_outcome,
                  poller_after o1 = poller_after o2 ->
                  poller_after (if sleep_cancelled env then o1 else o2) = poller_after o1) as Hsel
          by (intros ? ? ?; by destruct (sleep_cancelled env)).
        rewrite Hsel by done. cbn [poller_after pattern refresh_intervals confidence_level].
        split; [apply update_pattern_window|].
        apply update_pattern_confidence.
    + rewrite (locked_update_first _ _ _ _ Htok). by destruct (sleep_cancelled env).
  - destruct (current_token self); destruct (isinstance_Exception e); by destruct (sleep_cancelled env).
Qed.

(** The third rotation, again after 100 seconds: the window holds three
    equal intervals and confidence rises from 0 to 1. *)
Lemma confidence_rises_on_third_rotation :
  confidence_level
    (pattern (poller_after (loop_body knows_two_intervals 0 first_rotation))) =
  confidence_level (pattern knows_two_intervals) + 1.
Proof.
  destruct (confidence_changes_with_full_window
              knows_two_intervals 0 first_rotation) as [_ H].
  change (rotation_detected knows_two_intervals first_rotation) with true in H.
  destruct H as (_ & Hup & _).
  apply Hup; by vm_compute.
Defined.

(** C1 as stated fails on the first rotation: the window becomes [[100]],
    whose variance is 0, yet confidence stays at 0 instead of rising to 1. *)
Lemma confidence_unchanged_on_first_rotation :
  let self' := poller_after (loop_body knows_one_token 0 first_rotation) in
  rotation_detected knows_one_token first_rotation = true /\
  refresh_intervals (pattern self') = [100] /\
  (variance (refresh_intervals (pattern self')) < 100 # 1)%Q /\
  confidence_level (pattern self') = 0 /\
  confidence_level (pattern self') <> confidence_level (pattern knows_one_token) + 1.
Proof. vm_compute. repeat split; congruence. Qed.

(** C2.  The sleep computed at the end of an iteration is the one the
    policy prescribes, rules tried in order: with confidence at least 3 and
    a non-empty window, 120 when the time remaining until the expected
    rotation exceeds 300, 60 when it exceeds 120, else 30; otherwise 30, 60,
    120 or 300 as the count of unchanged fetches is below 5, below 20,
    below 40, or not.  The policy prescribes exactly one sleep, and an
    iteration that fetched a token sleeps for the duration computed from the
    pattern, the count and the time of that iteration. *)
Theorem next_sleep_follows_policy (p : TokenPattern) (same : Z) (now : Q) :
  prescribed_sleep p same now (_calculate_next_poll_interval p same now) /\
  (forall s, prescribed_sleep p same now s ->
             s = _calculate_next_poll_interval p same now) /\
  (forall self token,
      exists self' same',
        loop_body self same {| fetch := Returned token; time_time := now;
                               sleep_cancelled := false |} =
          Slept self' same'
                (_calculate_next_poll_interval (pattern self') same' now)).
Proof.
  split; [apply calculated_sleep_prescribed|]. split.
  - intros s Hs. eapply prescribed_sleep_unique; [exact Hs | apply calculated_sleep_prescribed].
  - intros self token. unfold loop_body, asyncio_sleep. cbn [fetch time_time sleep_cancelled].
    destruct (locked_update self same token now) as [self' same']. by exists self', same'.
Qed.

(** The policy at work: an average of 300 with 150 seconds elapsed leaves
    150 seconds, hence a sleep of 60; without confidence, 6 unchanged
    fetches give 60 and 41 give 300. *)
Example sleeps_computed :
  let learned := {| refresh_intervals := [300];
                    last_refresh_time := 1000 # 1;
                    confidence_level := 3 |} in
  let unsure := {| refresh_intervals := [300];
                   last_refresh_time := 1000 # 1;
                   confidence_level := 0 |} in
  _calculate_next_poll_interval learned 0 (1150 # 1) = 60 /\
  _calculate_next_poll_interval unsure 6 (1150 # 1) = 60 /\
  _calculate_next_poll_interval unsure 41 (1150 # 1) = 300.
Proof. by vm_compute. Qed.

(** C3.  After any sequence of responses of the credential source, the
    loop is still running and its window holds at most five intervals, as
    many as the smaller of five and the number of rotations seen, and they
    are the most recent intervals in the order in which they occurred.
    The bound of five also holds at every point of any run in which the
    loop is stopped or its task cancelled. *)
Theorem window_holds_last_five_rotations (rs : list (credential_response * Q)) :
  (exists self same sleeps,
      start_polling __init__ (events_of rs) = Suspended self same sleeps /\
      (length (refresh_intervals (pattern self)) <= 5)%nat /\
      length (refresh_intervals (pattern self)) = Nat.min 5 (rotations_seen rs) /\
      refresh_intervals (pattern self) =
        most_recent 5 (rotation_intervals None (0 # 1) rs)) /\
  (forall events,
      (length (refresh_intervals
                 (pattern (poller_at (start_polling __init__ events)))) <= 5)%nat).
Proof.
  split; [|intros events; apply while_running_window; cbn; lia].
  unfold start_polling, _poll_loop.
  edestruct (loop_on_responses rs) with (hist := @nil Z)
    as (self' & same' & new & Hloop & _ & Hwin & _); [| | rewrite Hloop]; [done | done |].
  exists self', same', new. split; [done|].
  unfold __init__ in Hwin.
  cbn [app current_token pattern last_refresh_time] in Hwin.
  rewrite Hwin, most_recent_length. unfold rotations_seen.
  split; [lia|]. done.
Qed.

(** C8.  An iteration whose fetch fails ends in a sleep of 30 seconds
    with the poller unchanged, and the loop goes on with the next
    iteration; over any sequence of responses the loop is still running at
    the end and has slept 30 seconds after every failure; and whatever
    happens around the loop, the only exception that ever leaves it is the
    cancellation of the task, never a failure of the credential source. *)
Theorem credential_failure_is_retried :
  (forall self same msg now,
      loop_body self same {| fetch := Raised (Exception msg); time_time := now;
                             sleep_cancelled := false |} = Slept self same 30) /\
  (forall self same sleeps msg now events,
      running self = true ->
      while_running self same sleeps
        (resumed {| fetch := Raised (Exception msg); time_time := now;
                    sleep_cancelled := false |} :: events) =
      while_running self same (sleeps ++ [30]) events) /\
  (forall rs : list (credential_response * Q),
      exists self same sleeps,
        start_polling __init__ (events_of rs) = Suspended self same sleeps /\
        length sleeps = length rs /\
        forall i msg t, rs !! i = Some (failure msg, t) -> sleeps !! i = Some 30) /\
  (forall self events self' e sleeps,
      _poll_loop self events = Aborted self' e sleeps -> e = CancelledError).
Proof.
  split; [done|]. split.
  { intros self same sleeps msg now events Hrun. cbn. by rewrite Hrun. }
  split.
  - intros rs. unfold start_polling, _poll_loop.
    edestruct (loop_on_responses rs) with (hist := @nil Z)
      as (self' & same' & new & Hloop & _ & _ & Hlen & Hfail); [| | rewrite Hloop]; [done | done |].
    by exists self', same', new.
  - intros self events self' e sleeps. apply while_running_aborts.
Qed.

End PollerFacts.

(** ** The key provider *)

Section ProviderFacts.
Import KeyProvider Design Examples.

Lemma py_max_Qmax (a : Z) (v : number) :
  seconds (py_max a v) = Qmax (inject_Z a) (seconds v).
Proof.
  unfold py_max, Qgtb, Qmax, GenericMinMax.gmax.
  destruct v as [n|x]; cbn [seconds].
  - destruct (Qcompare_spec (inject_Z a) (inject_Z n)) as [Heq|Hlt|Hgt].
    + apply inject_Z_injective in Heq as ->. by rewrite Z.gtb_ltb, Z.ltb_irrefl.
    + rewrite <- Zlt_Qlt in Hlt. by rewrite (proj2 (Z.gtb_gt n a)) by lia.
    + rewrite <- Zlt_Qlt in Hgt.
      destruct (Z.gtb_spec n a); [lia|done].
  - destruct (Qcompare_spec (inject_Z a) x) as [Heq|Hlt|Hgt].
    + rewrite (proj2 (Qltb_ge (inject_Z a) x)); [done|]. rewrite Heq. apply Qle_refl.
    + by rewrite (proj2 (Qltb_lt (inject_Z a) x)).
    + rewrite (proj2 (Qltb_ge (inject_Z a) x)); [done|]. by apply Qlt_le_weak.
Qed.

Lemma int_minus_seconds (a : Z) (v : number) :
  (seconds (int_minus a v) == inject_Z a - seconds v)%Q.
Proof.
  destruct v as [n|x]; cbn [int_minus seconds]; [|reflexivity].
  unfold Qeq. cbn. lia.
Qed.

Lemma py_max_int (a n : Z) : py_max a (Int n) = Int (Z.max a n).
Proof.
  unfold py_max. destruct (Z.gtb_spec n a); f_equal; lia.
Qed.

Lemma float_plus_fits t v :
  fits_float v -> float_plus t v = inr (t + seconds v)%Q.
Proof.
  destruct v as [n|x]; cbn; [|done]. intros Hn. unfold float_of_int.
  by destruct (Z.leb_spec float_limit (Z.abs n)); [lia|].
Qed.

Lemma float_plus_overflow t v :
  ~ fits_float v -> float_plus t v = inl OverflowError.
Proof.
  destruct v as [n|x]; cbn; [|done]. intros Hn. unfold float_of_int.
  by destruct (Z.leb_spec float_limit (Z.abs n)); [|lia].
Qed.

Lemma fits_float_dec v : fits_float v \/ ~ fits_float v.
Proof. destruct v as [n|x]; cbn; [lia|tauto]. Qed.

Lemma get_client_cache self : _cache (_get_client self) = _cache self.
Proof. unfold _get_client. by destruct (_client self). Qed.


Lemma get_client_duration self :
  cache_duration_seconds (config (_get_client self)) =
  cache_duration_seconds (config self).
Proof. unfold _get_client. by destruct (_client self). Qed.

Lemma contains_obj key fields :
  contains key (JObj fields) = inr (bool_decide (is_Some (fields !! key))).
Proof. done. Qed.

Lemma handle_formats_obj duration fields :
  handle_formats duration (JObj fields) =
  match fields !! "token" with
  | Some token =>
      match fields !! "age_seconds" with
      | Some age_seconds =>
          age ← as_number age_seconds;
          mret (token, JNum (py_max 60 (int_minus 1800 age)))
      | None => mret (token, JNum (Int duration))
      end
  | None =>
      match fields !! "api_key" with
      | Some api_key =>
          mret (api_key, default (JNum (Int duration)) (fields !! "expires_in"))
      | None => mret (JNull, JNum (Int duration))
      end
  end.
Proof.
  unfold handle_formats. rewrite !contains_obj.
  cbn [mbind raising_bind subscript dict_get].
  destruct (fields !! "token") as [token|] eqn:Ht.
  - rewrite bool_decide_eq_true_2 by eauto.
    destruct (fields !! "age_seconds") as [a|] eqn:Ha.
    + rewrite bool_decide_eq_true_2 by eauto.
      cbn. by destruct (as_number a).
    + rewrite bool_decide_eq_false_2 by (by intros [? ?]). done.
  - rewrite bool_decide_eq_false_2 by (by intros [? ?]).
    destruct (fields !! "api_key") as [k|] eqn:Hk.
    + rewrite bool_decide_eq_true_2 by eauto. by destruct (fields !! "expires_in").
    + rewrite bool_decide_eq_false_2 by (by intros [? ?]). done.
Qed.

Lemma check_cache_valid self p entry now :
  _cache self !! p = Some entry -> (now <= expires_at entry)%Q ->
  check_cache self p now = Some (key entry).
Proof.
  intros Hentry Hnow. unfold check_cache, is_expired, Qgtb. rewrite Hentry.
  by rewrite (proj2 (Qltb_ge _ _) Hnow).
Qed.

Lemma check_cache_expired self p entry now :
  _cache self !! p = Some entry -> (expires_at entry < now)%Q ->
  check_cache self p now = None.
Proof.
  intros Hentry Hnow. unfold check_cache, is_expired, Qgtb. rewrite Hentry.
  by rewrite (proj2 (Qltb_lt _ _) Hnow).
Qed.

Lemma fetch_hit self p env api_key :
  check_cache self p (time_check env) = Some api_key ->
  fetch_api_key self p env = cache_hit self api_key.
Proof. intros H. unfold fetch_api_key. by rewrite H. Qed.

Lemma fetch_miss self p env :
  check_cache self p (time_check env) = None ->
  fetch_api_key self p env =
    {| returned := (fetch_new_key (_get_client self) p (response env) (time_store env)).1;
       after := (fetch_new_key (_get_client self) p (response env) (time_store env)).2;
       requests := 1 |}.
Proof.
  intros H. unfold fetch_api_key. rewrite H. by destruct (fetch_new_key _ _ _ _).
Qed.

Lemma fetch_new_key_cache_other self p q response now :
  p <> q ->
  _cache (fetch_new_key self p response now).2 !! q = _cache self !! q.
Proof.
  intros Hne. unfold fetch_new_key. destruct (try_block _ _ _ _); [done|].
  cbn. by rewrite lookup_insert_ne.
Qed.

Lemma fetch_cache_other self p q env :
  p <> q -> _cache (after (fetch_api_key self p env)) !! q = _cache self !! q.
Proof.
  intros Hne. destruct (check_cache self p (time_check env)) as [v|] eqn:Hc.
  - by rewrite (fetch_hit _ _ _ _ Hc).
  - rewrite (fetch_miss _ _ _ Hc). cbn [after].
    by rewrite fetch_new_key_cache_other, get_client_cache.
Qed.

(** A body whose key is a non-empty string and whose lifetime is a
    number gives this cache entry. *)
Lemma try_block_entry self p data now s ev lifetime :
  handle_formats (cache_duration_seconds (config self)) data = inr (JStr s, ev) ->
  s <> EmptyString -> as_number ev = inr lifetime -> fits_float lifetime ->
  try_block self p (http_json data) now =
    inr {| key := s; expires_at := now + seconds lifetime |}.
Proof.
  intros Hf Hs Hn Hfit. unfold try_block. cbn. rewrite Hf. cbn.
  destruct (String.eqb_spec s EmptyString); [done|]. cbn. rewrite Hn. cbn.
  by rewrite (float_plus_fits _ _ Hfit).
Qed.

(** A lifetime that is an int too large for a float stops the call at
    the sum on line 126. *)
Lemma try_block_overflow self p data now api_key ev lifetime :
  handle_formats (cache_duration_seconds (config self)) data = inr (api_key, ev) ->
  truthy api_key = true -> as_number ev = inr lifetime -> ~ fits_float lifetime ->
  try_block self p (http_json data) now = inl OverflowError.
Proof.
  intros Hf Ht Hn Hfit. unfold try_block. cbn. rewrite Hf. cbn. rewrite Ht. cbn.
  rewrite Hn. cbn. by rewrite (float_plus_overflow _ _ Hfit).
Qed.

(** A body whose key is missing or falsy is refused before anything is
    stored, and the refusal is what the last [except] clause catches. *)
Lemma try_block_refused self p data now api_key ev :
  handle_formats (cache_duration_seconds (config self)) data = inr (api_key, ev) ->
  truthy api_key = false ->
  try_block self p (http_json data) now = inl (invalid_response p data).
Proof.
  intros Hf Ht. unfold try_block. cbn. rewrite Hf. cbn. by rewrite Ht.
Qed.

Lemma fetch_new_key_raises self p response now e :
  try_block self p response now = inl e ->
  fetch_new_key self p response now = (Raise (except_clauses self p e), self).
Proof. intros H. unfold fetch_new_key. by rewrite H. Qed.

Lemma fetch_stores self p env data s ev lifetime :
  check_cache self p (time_check env) = None ->
  response env = http_json data ->
  handle_formats (cache_duration_seconds (config self)) data = inr (JStr s, ev) ->
  s <> EmptyString -> as_number ev = inr lifetime -> fits_float lifetime ->
  fetch_api_key self p env =
    {| returned := Return s;
       after := with_cache (_get_client self)
                  (<[p := {| key := s;
                             expires_at := time_store env + seconds lifetime |}]>
                     (_cache self));
       requests := 1 |}.
Proof.
  intros Hc Hr Hf Hs Hn Hfit. rewrite (fetch_miss _ _ _ Hc), Hr.
  unfold fetch_new_key.
  rewrite (try_block_entry _ _ _ _ s ev lifetime); [|by rewrite get_client_duration|done..].
  cbn. by rewrite get_client_cache.
Qed.

Lemma fetch_overflows self p env data api_key ev lifetime :
  check_cache self p (time_check env) = None ->
  response env = http_json data ->
  handle_formats (cache_duration_seconds (config self)) data = inr (api_key, ev) ->
  truthy api_key = true -> as_number ev = inr lifetime -> ~ fits_float lifetime ->
  fetch_api_key self p env =
    {| returned := Raise (unexpected_error OverflowError);
       after := _get_client self;
       requests := 1 |}.
Proof.
  intros Hc Hr Hf Ht Hn Hfit. rewrite (fetch_miss _ _ _ Hc), Hr.
  rewrite (fetch_new_key_raises _ _ _ _ OverflowError); [done|].
  eapply try_block_overflow; [by rewrite get_client_duration|done..].
Qed.

Lemma fetch_refuses self p env data api_key ev :
  check_cache self p (time_check env) = None ->
  response env = http_json data ->
  handle_formats (cache_duration_seconds (config self)) data = inr (api_key, ev) ->
  truthy api_key = false ->
  fetch_api_key self p env =
    {| returned := Raise (unexpected_error (invalid_response p data));
       after := _get_client self;
       requests := 1 |}.
Proof.
  intros Hc Hr Hf Ht. rewrite (fetch_miss _ _ _ Hc), Hr.
  rewrite (fetch_new_key_raises _ _ _ _ (invalid_response p data)); [done|].
  eapply try_block_refused; [by rewrite get_client_duration|done].
Qed.

Lemma try_block_inv self p response now entry :
  try_block self p response now = inr entry ->
  exists data ev lifetime,
    response = http_json data /\
    handle_formats (cache_duration_seconds (config self)) data =
      inr (JStr (key entry), ev) /\
    key entry <> EmptyString /\
    as_number ev = inr lifetime /\
    fits_float lifetime /\
    expires_at entry = (now + seconds lifetime)%Q.
Proof.
  unfold try_block. destruct response as [e|data]; cbn; [done|].
  destruct (handle_formats _ data) as [e|[api_key ev]] eqn:Hf; cbn; [done|].
  destruct (truthy api_key) eqn:Ht; cbn; [|done].
  destruct (as_number ev) as [e|lifetime] eqn:Hn; cbn; [done|].
  destruct (fits_float_dec lifetime) as [Hfit|Hfit].
  2:{ by rewrite (float_plus_overflow _ _ Hfit). }
  rewrite (float_plus_fits _ _ Hfit). cbn.
  destruct api_key; cbn; try done.
  intros [= <-]. cbn. exists data, ev, lifetime. repeat split; try done.
  intros ->. done.
Qed.


(** C4.  A decoded body is normalised by the fields present, [token]
    first.  With [token]: the value is that field and the lifetime is
    [max(60, 1800 - age_seconds)] when [age_seconds] is there (an int for
    an int age), the configured duration when it is not.  Without [token]
    but with [api_key]: the value is that field and the lifetime is the
    field [expires_in] when present, else the configured duration.  A call
    that misses the cache returns the value so obtained and stores it with
    [expires_at = now + lifetime], provided the lifetime is a float or an
    int that a float can take; an int lifetime beyond that range makes the
    sum raise [OverflowError], which reaches the caller as the "unexpected
    error", and nothing is stored.  On [{"token": "abc", "age_seconds":
    1700}] the lifetime is 100; on [{"api_key": "xyz"}] it is the
    configured duration. *)
Theorem response_normalised_by_field_presence
    (duration : Z) (fields : gmap string json) :
  let data := JObj fields in
  (forall token, fields !! "token" = Some token ->
     (forall age, fields !! "age_seconds" = Some (JNum age) ->
        exists lifetime,
          handle_formats duration data = inr (token, JNum lifetime) /\
          (seconds lifetime == Qmax (60 # 1) ((1800 # 1) - seconds age))%Q /\
          (forall n, age = Int n -> lifetime = Int (Z.max 60 (1800 - n)))) /\
     (fields !! "age_seconds" = None ->
        handle_formats duration data = inr (token, JNum (Int duration)))) /\
  (fields !! "token" = None ->
   forall api_key, fields !! "api_key" = Some api_key ->
     (forall expires_in, fields !! "expires_in" = Some expires_in ->
        handle_formats duration data = inr (api_key, expires_in)) /\
     (fields !! "expires_in" = None ->
        handle_formats duration data = inr (api_key, JNum (Int duration)))) /\
  (forall self p env value lifetime,
     cache_duration_seconds (config self) = duration ->
     check_cache self p (time_check env) = None ->
     response env = http_json data ->
     handle_formats duration data = inr (JStr value, JNum lifetime) ->
     value <> EmptyString ->
     (fits_float lifetime ->
      fetch_api_key self p env =
        {| returned := Return value;
           after := with_cache (_get_client self)
                      (<[p := {| key := value;
                                 expires_at := time_store env + seconds lifetime |}]>
                         (_cache self));
           requests := 1 |}) /\
     (~ fits_float lifetime ->
      fetch_api_key self p env =
        {| returned := Raise (unexpected_error OverflowError);
           after := _get_client self;
           requests := 1 |})) /\
  handle_formats duration
    (JObj {[ "token" := JStr "abc"; "age_seconds" := JNum (Int 1700) ]}) =
    inr (JStr "abc", JNum (Int 100)) /\
  handle_formats duration
    (JObj {[ "token" := JStr "abc"; "age_seconds" := JNum (Float (3401 # 2)) ]}) =
    inr (JStr "abc", JNum (Float (199 # 2))) /\
  handle_formats duration (JObj {[ "api_key" := JStr "xyz" ]}) =
    inr (JStr "xyz", JNum (Int duration)).
Proof.
  cbn zeta. split; [|split; [|split; [|split; [|split]]]].
  - intros token Ht. split.
    + intros age Ha. exists (py_max 60 (int_minus 1800 age)).
      split; [by rewrite handle_formats_obj, Ht, Ha|]. split.
      * rewrite py_max_Qmax. apply Q.max_compat; [reflexivity|].
        apply int_minus_seconds.
      * intros n ->. apply py_max_int.
    + intros Ha. by rewrite handle_formats_obj, Ht, Ha.
  - intros Ht api_key Hk. split.
    + intros e He. by rewrite handle_formats_obj, Ht, Hk, He.
    + intros He. by rewrite handle_formats_obj, Ht, Hk, He.
  - intros self p env value lifetime <- Hc Hr Hf Hv. split; intros Hfit.
    + by apply (fetch_stores _ _ _ (JObj fields) value (JNum lifetime) lifetime).
    + apply (fetch_overflows _ _ _ (JObj fields) (JStr value) (JNum lifetime) lifetime);
        try done.
      cbn. by destruct (String.eqb_spec value EmptyString).
  - by rewrite handle_formats_obj.
  - by rewrite handle_formats_obj.
  - by rewrite handle_formats_obj.
Qed.





(** C6, in the code.  On a body with neither [token] nor [api_key] the
    call raises, and the cache is left as it was; but the error raised for
    the invalid response is caught by the last [except] clause of the same
    [try], so what reaches the caller is the "unexpected error" built
    there, with the invalid-response error only inside its details. *)
Theorem missing_key_error_is_rewrapped
    (self : DynamicKeyProvider) (p : string) (env : call_env)
    (fields : gmap string json) :
  response env = http_json (JObj fields) ->
  fields !! "token" = None -> fields !! "api_key" = None ->
  check_cache self p (time_check env) = None ->
  let out := fetch_api_key self p env in
  returned out = Raise (unexpected_error (invalid_response p (JObj fields))) /\
  returned out <> Raise (invalid_response p (JObj fields)) /\
  _cache (after out) = _cache self.
Proof.
  intros Hr Ht Hk Hc. cbn zeta.
  rewrite (fetch_refuses self p env (JObj fields) JNull
             (JNum (Int (cache_duration_seconds (config self))))); try done.
  - cbn. split; [done|]. split; [done|]. apply get_client_cache.
  - by rewrite handle_formats_obj, Ht, Hk.
Qed.

(** The body [{"unexpected": "field"}] met while the cached entry has
    expired. *)
Lemma missing_key_error_on_unexpected_body :
  let out := fetch_api_key stale "anthropic"
               (at_time 1000 (http_json (JObj unexpected_fields))) in
  returned out =
    Raise (unexpected_error
             (invalid_response "anthropic" (JObj unexpected_fields))) /\
  returned out <> Raise (invalid_response "anthropic" (JObj unexpected_fields)) /\
  _cache (after out) = _cache stale.
Proof.
  apply (missing_key_error_is_rewrapped stale "anthropic"
           (at_time 1000 (http_json (JObj unexpected_fields)))
           unexpected_fields);
    by vm_compute.
Defined.

(** C10, in the code.  When the value extracted from [token] or
    [api_key] is the empty string, nothing is stored and the empty string is
    not returned: the call raises, and the cache is left as it was.  As for
    a missing field, the invalid-response error is caught by the last
    [except] clause and reaches the caller wrapped in the "unexpected
    error". *)
Theorem empty_key_error_is_rewrapped
    (self : DynamicKeyProvider) (p : string) (env : call_env)
    (fields : gmap string json) (expires_in : json) :
  response env = http_json (JObj fields) ->
  handle_formats (cache_duration_seconds (config self)) (JObj fields) =
    inr (JStr EmptyString, expires_in) ->
  check_cache self p (time_check env) = None ->
  let out := fetch_api_key self p env in
  returned out = Raise (unexpected_error (invalid_response p (JObj fields))) /\
  returned out <> Raise (invalid_response p (JObj fields)) /\
  returned out <> Return EmptyString /\
  _cache (after out) = _cache self.
Proof.
  intros Hr Hf Hc. cbn zeta.
  rewrite (fetch_refuses self p env (JObj fields) (JStr EmptyString) expires_in); try done.
  cbn. repeat split; try done. apply get_client_cache.
Qed.

(** A body whose [token] is the empty string, met while the cached entry
    has expired. *)
Lemma empty_key_error_on_empty_token :
  let out := fetch_api_key stale "anthropic"
               (at_time 1000 (http_json (JObj empty_token_fields))) in
  returned out =
    Raise (unexpected_error
             (invalid_response "anthropic" (JObj empty_token_fields))) /\
  returned out <> Raise (invalid_response "anthropic" (JObj empty_token_fields)) /\
  returned out <> Return EmptyString /\
  _cache (after out) = _cache stale.
Proof.
  apply (empty_key_error_is_rewrapped stale "anthropic"
           (at_time 1000 (http_json (JObj empty_token_fields)))
           empty_token_fields (JNum (Int 1800)));
    by vm_compute.
Defined.

End ProviderFacts.

(** ** Concurrent callers *)

Section TaskFacts.
Import KeyProvider Design Examples.

Lemma in_flight_count_insert ts : forall i old new,
  ts !! i = Some old ->
  (in_flight_count (<[i := new]> ts) + (if is_in_flight old then 1 else 0) =
   in_flight_count ts + (if is_in_flight new then 1 else 0))%nat.
Proof.
  induction ts as [|t ts IH]; intros [|i] old new Hi; try done.
  - injection Hi as ->.
    change (<[0%nat := new]> (old :: ts)) with (new :: ts).
    cbn [in_flight_count].
    destruct (is_in_flight old), (is_in_flight new); lia.
  - change (ts !! i = Some old) in Hi. specialize (IH i old new Hi).
    change (<[S i := new]> (t :: ts)) with (t :: <[i := new]> ts).
    cbn [in_flight_count].
    destruct (is_in_flight t), (is_in_flight old), (is_in_flight new); lia.
Qed.

Lemma run_step_invariant s st s' :
  lock_invariant s -> run_step s st = Some s' -> lock_invariant s'.
Proof.
  unfold lock_invariant. intros Hinv.
  destruct st as [i now|i resp now|i]; cbn [run_step].
  - destruct (tasks s !! i) as [[name|name|r]|] eqn:Hi; try done.
    destruct (locked s); [done|].
    destruct (check_cache _ _ _) as [v|]; intros [= <-]; cbn [tasks locked].
    + pose proof (in_flight_count_insert _ _ _ (finished (Return v)) Hi) as H.
      cbn in H. lia.
    + pose proof (in_flight_count_insert _ _ _ (in_flight name) Hi) as H.
      cbn in H. lia.
  - destruct (tasks s !! i) as [[name|name|r]|] eqn:Hi; try done.
    destruct (fetch_new_key _ _ _ _) as [r self']. intros [= <-]; cbn [tasks locked].
    pose proof (in_flight_count_insert _ _ _ (finished r) Hi) as H.
    cbn in H. destruct (locked s); lia.
  - destruct (tasks s !! i) as [[name|name|r]|] eqn:Hi; try done.
    intros [= <-]; cbn [tasks locked].
    pose proof (in_flight_count_insert _ _ _ (finished (Raise CancelledError)) Hi) as H.
    cbn in H. lia.
Qed.

Lemma run_invariant steps : forall s s',
  lock_invariant s -> run s steps = Some s' -> lock_invariant s'.
Proof.
  induction steps as [|st steps IH]; intros s s' Hinv; cbn.
  - by intros [= <-].
  - destruct (run_step s st) as [s1|] eqn:Hst; cbn; [|done].
    apply IH. eapply run_step_invariant; eauto.
Qed.

(** At no point of a run are two requests in flight. *)
Lemma one_request_at_a_time self p steps k s :
  run (two_callers self p) (take k steps) = Some s ->
  (in_flight_count (tasks s) <= 1)%nat.
Proof.
  intros Hrun. apply run_invariant in Hrun; [|done].
  rewrite Hrun. destruct (locked s); lia.
Qed.

Lemma check_cache_stored self p entry now :
  (now <= expires_at entry)%Q ->
  check_cache (with_cache self (<[p := entry]> (_cache self))) p now =
    Some (key entry).
Proof.
  intros Hnow. apply check_cache_valid; [|done]. apply lookup_insert_eq.
Qed.

(** Once every task of a system has finished, no step can run. *)
Lemma run_all_finished r0 r1 steps : forall s s',
  tasks s = [finished r0; finished r1] ->
  run s steps = Some s' -> steps = [] /\ s' = s.
Proof.
  intros s s' Hts. destruct steps as [|[i now|i resp now|i] steps]; cbn.
  - by intros [= <-].
  - rewrite Hts. by destruct i as [|[|i]].
  - rewrite Hts. by destruct i as [|[|i]].
  - rewrite Hts. by destruct i as [|[|i]].
Qed.

(** The caller that comes second, once the first has its result [r]: it
    is served from the cache when its own check finds a valid entry, and
    sends a request of its own when it finds none. *)
Lemma second_caller self1 p i r rest s' r0 r1 :
  (i < 2)%nat ->
  Forall (fun st => is_cancel st = false) rest ->
  run {| provider := self1; locked := false;
         tasks := <[i := finished r]> [at_lock p; at_lock p];
         sent := 1 |} rest = Some s' ->
  tasks s' = [finished r0; finished r1] ->
  exists t3 rest',
    rest = enter (1 - i) t3 :: rest' /\
    [r0; r1] !! i = Some r /\
    match check_cache self1 p t3 with
    | Some api_key =>
        rest' = [] /\ sent s' = 1%nat /\
        [r0; r1] !! (1 - i)%nat = Some (Return api_key)
    | None =>
        exists resp t4,
          rest' = [answer (1 - i) resp t4] /\ sent s' = 2%nat /\
          [r0; r1] !! (1 - i)%nat =
            Some (fetch_new_key (_get_client self1) p resp t4).1
    end.
Proof.
  intros Hi Hcancel Hrun Hdone.
  destruct rest as [|[k t3|k resp t3|k] rest].
  { injection Hrun as <-. by destruct i as [|[|i]]. }
  2:{ by destruct i as [|[|i]], k as [|[|k]]. }
  2:{ by apply Forall_cons in Hcancel as [? _]. }
  apply Forall_cons in Hcancel as [_ Hcancel].
  assert (k = (1 - i)%nat) as ->.
  { destruct i as [|[|i]], k as [|[|k]]; try done; lia. }
  exists t3, rest. split; [done|].
  assert (run_step {| provider := self1; locked := false;
                      tasks := <[i := finished r]> [at_lock p; at_lock p];
                      sent := 1 |} (enter (1 - i) t3) =
          match check_cache self1 p t3 with
          | Some api_key =>
              Some {| provider := self1; locked := false;
                      tasks := <[(1 - i)%nat := finished (Return api_key)]>
                                 (<[i := finished r]> [at_lock p; at_lock p]);
                      sent := 1 |}
          | None =>
              Some {| provider := _get_client self1; locked := true;
                      tasks := <[(1 - i)%nat := in_flight p]>
                                 (<[i := finished r]> [at_lock p; at_lock p]);
                      sent := 2 |}
          end) as Hstep.
  { by destruct i as [|[|i]]; [..|lia]. }
  cbn [run] in Hrun. rewrite Hstep in Hrun. clear Hstep.
  destruct (check_cache self1 p t3) as [v|].
  - cbn [mbind option_bind] in Hrun.
    assert (exists q0 q1, <[(1 - i)%nat := finished (Return v)]>
              (<[i := finished r]> [at_lock p; at_lock p]) =
            [finished q0; finished q1] /\
            [q0; q1] !! i = Some r /\ [q0; q1] !! (1 - i)%nat = Some (Return v))
      as (q0 & q1 & Hts & Hqi & Hqj).
    { destruct i as [|[|i]]; [by eexists _, _..|lia]. }
    rewrite Hts in Hrun.
    apply (run_all_finished q0 q1) in Hrun as [-> ->]; [|done].
    cbn in Hdone |- *. by injection Hdone as <- <-.
  - cbn [mbind option_bind] in Hrun.
    destruct rest as [|[k t4|k resp t4|k] rest].
    { injection Hrun as <-. by destruct i as [|[|i]]. }
    { by destruct i as [|[|i]], k as [|[|k]]. }
    2:{ by apply Forall_cons in Hcancel as [? _]. }
    assert (k = (1 - i)%nat) as ->.
    { destruct i as [|[|i]], k as [|[|k]]; try done; lia. }
    assert (exists q q0 q1,
              run_step
                {| provider := _get_client self1; locked := true;
                   tasks := <[(1 - i)%nat := in_flight p]>
                              (<[i := finished r]> [at_lock p; at_lock p]);
                   sent := 2 |} (answer (1 - i) resp t4) = Some q /\
              sent q = 2%nat /\
              tasks q = [finished q0; finished q1] /\
              [q0; q1] !! i = Some r /\
              [q0; q1] !! (1 - i)%nat =
                Some (fetch_new_key (_get_client self1) p resp t4).1)
      as (q & q0 & q1 & Hstep & Hsent & Hts & Hqi & Hqj).
    { destruct i as [|[|i]]; [..|lia]; cbn;
        destruct (fetch_new_key _ _ _ _) as [r' self2]; by eexists _, _, _. }
    cbn [run] in Hrun. rewrite Hstep in Hrun. cbn [mbind option_bind] in Hrun.
    apply (run_all_finished q0 q1) in Hrun as [-> ->]; [|done].
    rewrite Hts in Hdone. injection Hdone as <- <-.
    split; [done|]. by exists resp, t4.
Qed.

(** C9, as amended.  Two calls for the same key started together, neither
    of which is cancelled while it waits for the lock, never have requests
    in flight at the same time.  One of them takes the lock first; if it
    misses the cache, the other enters only after the answer to the first
    has been handled, and then checks the cache for itself, on the provider
    the first call has left.  When that check finds a valid entry the
    second caller returns its key and the run is over with exactly one
    request sent; when it finds none the second caller sends a request of
    its own, two requests are sent in all, and the second caller ends as
    its own request does.  So when the first request succeeds and the entry
    it stored is still valid at the second caller's check, exactly one
    request is sent and both callers return the key of that entry; when the
    first request succeeds but the entry has expired by that check, or when
    the first request fails and the cache held no entry for the key, two
    requests are sent. *)
Theorem two_callers_share_one_request
    (self : DynamicKeyProvider) (p : string) (steps : list step)
    (s' : system) (r0 r1 : result) :
  run (two_callers self p) steps = Some s' ->
  tasks s' = [finished r0; finished r1] ->
  Forall (fun st => is_cancel st = false) steps ->
  (forall k s, run (two_callers self p) (take k steps) = Some s ->
               (in_flight_count (tasks s) <= 1)%nat) /\
  exists i t1 rest,
    steps = enter i t1 :: rest /\ (i < 2)%nat /\
    (check_cache self p t1 = None ->
     exists resp t2 t3 rest',
       rest = answer i resp t2 :: enter (1 - i) t3 :: rest' /\
       let first := fetch_new_key (_get_client self) p resp t2 in
       [r0; r1] !! i = Some first.1 /\
       match check_cache first.2 p t3 with
       | Some api_key =>
           rest' = [] /\ sent s' = 1%nat /\
           [r0; r1] !! (1 - i)%nat = Some (Return api_key)
       | None =>
           exists resp' t4,
             rest' = [answer (1 - i) resp' t4] /\ sent s' = 2%nat /\
             [r0; r1] !! (1 - i)%nat =
               Some (fetch_new_key (_get_client first.2) p resp' t4).1
       end /\
       (forall entry,
          try_block (_get_client self) p resp t2 = inr entry ->
          ((t3 <= expires_at entry)%Q ->
           rest' = [] /\ sent s' = 1%nat /\
           r0 = Return (key entry) /\ r1 = Return (key entry)) /\
          ((expires_at entry < t3)%Q -> sent s' = 2%nat)) /\
       (forall e,
          try_block (_get_client self) p resp t2 = inl e ->
          _cache self !! p = None -> sent s' = 2%nat)).
Proof.
  intros Hrun Hdone Hcancel. split; [intros k s; apply one_request_at_a_time|].
  destruct steps as [|[i t1|i resp t1|i] rest].
  { injection Hrun as <-. discriminate Hdone. }
  2:{ by destruct i as [|[|i]]. }
  2:{ by apply Forall_cons in Hcancel as [? _]. }
  apply Forall_cons in Hcancel as [_ Hcancel].
  assert (i < 2)%nat as Hi by (by destruct i as [|[|i]]; [lia..|]).
  exists i, t1, rest. split; [done|]. split; [done|]. intros Hcold.
  assert (run_step (two_callers self p) (enter i t1) =
          Some {| provider := _get_client self; locked := true;
                  tasks := <[i := in_flight p]> [at_lock p; at_lock p];
                  sent := 1 |}) as Hstep.
  { destruct i as [|[|i]]; [..|lia]; cbn; by rewrite Hcold. }
  cbn [run] in Hrun. rewrite Hstep in Hrun. clear Hstep.
  cbn [mbind option_bind] in Hrun.
  destruct rest as [|[k t2|k resp t2|k] rest].
  { injection Hrun as <-. by destruct i as [|[|i]]. }
  { by destruct i as [|[|i]], k as [|[|k]]. }
  2:{ by apply Forall_cons in Hcancel as [? _]. }
  apply Forall_cons in Hcancel as [_ Hcancel].
  assert (k = i) as ->.
  { destruct i as [|[|i]], k as [|[|k]]; try done; lia. }
  destruct (fetch_new_key (_get_client self) p resp t2) as [r self1] eqn:Hnew.
  assert (run_step {| provider := _get_client self; locked := true;
                      tasks := <[i := in_flight p]> [at_lock p; at_lock p];
                      sent := 1 |} (answer i resp t2) =
          Some {| provider := self1; locked := false;
                  tasks := <[i := finished r]> [at_lock p; at_lock p];
                  sent := 1 |}) as Hstep.
  { destruct i as [|[|i]]; [..|lia]; cbn; by rewrite Hnew. }
  cbn [run] in Hrun. rewrite Hstep in Hrun. clear Hstep.
  cbn [mbind option_bind] in Hrun.
  destruct (second_caller _ _ _ _ _ _ _ _ Hi Hcancel Hrun Hdone)
    as (t3 & rest' & -> & Hri & Hsecond).
  exists resp, t2, t3, rest'. split; [done|]. cbn zeta. rewrite Hnew. cbn [fst snd].
  split; [done|]. split; [done|]. split.
  - intros entry Htry.
    unfold fetch_new_key in Hnew. rewrite Htry in Hnew. injection Hnew as <- <-.
    split.
    + intros Hvalid. rewrite (check_cache_stored _ p entry t3 Hvalid) in Hsecond.
      destruct Hsecond as (-> & Hone & Hrj).
      split; [done|]. split; [done|].
      destruct i as [|[|i]]; [..|lia]; cbn in Hri, Hrj; by simplify_eq.
    + intros Hlate.
      rewrite (check_cache_expired _ p entry t3) in Hsecond;
        [|apply lookup_insert_eq|done].
      by destruct Hsecond as (resp' & t4 & _ & Htwo & _).
  - intros e Htry Hnone.
    unfold fetch_new_key in Hnew. rewrite Htry in Hnew. injection Hnew as <- <-.
    assert (check_cache (_get_client self) p t3 = None) as Hmiss.
    { unfold check_cache. by rewrite get_client_cache, Hnone. }
    rewrite Hmiss in Hsecond.
    by destruct Hsecond as (resp' & t4 & _ & Htwo & _).
Qed.

(** The run in which the first caller is answered with a key valid for
    120 seconds: the second caller, entering a second later, is served from
    the cache, and one request is sent in all. *)
Lemma two_callers_served_once :
  run (two_callers cold "anthropic") run_after_success = Some served_once /\
  sent served_once = 1%nat /\
  exists i t1 rest,
    run_after_success = enter i t1 :: rest /\ (i < 2)%nat /\
    (check_cache cold "anthropic" t1 = None ->
     exists resp t2 t3 rest',
       rest = answer i resp t2 :: enter (1 - i) t3 :: rest' /\
       forall entry,
         try_block (_get_client cold) "anthropic" resp t2 = inr entry ->
         (t3 <= expires_at entry)%Q ->
         rest' = [] /\ sent served_once = 1%nat /\
         Return "xyz" = Return (key entry) /\ Return "xyz" = Return (key entry)).
Proof.
  split; [by vm_compute|]. split; [done|].
  destruct (two_callers_share_one_request cold "anthropic" run_after_success
              served_once (Return "xyz") (Return "xyz"))
    as (_ & i & t1 & rest & Hsteps & Hi & Hmiss);
    [by vm_compute | by vm_compute | repeat constructor |].
  exists i, t1, rest. split; [done|]. split; [done|]. intros Hc.
  destruct (Hmiss Hc) as (resp & t2 & t3 & rest' & Hrest & _ & _ & Hstored & _).
  exists resp, t2, t3, rest'. split; [done|].
  intros entry Htry Hvalid. by apply (Hstored entry Htry).
Defined.

(** Two callers on [stale]: the first request is answered with a 503
    and caches nothing; the clock of the second caller reads 400, when the
    old entry is still valid, and the second caller is served that entry.
    One request is sent in all. *)
Example old_entry_serves_second_caller :
  match run (two_callers stale "anthropic")
            [enter 0 (1000 # 1); answer 0 (http_raised unavailable) (1001 # 1);
             enter 1 (400 # 1)] with
  | Some s' =>
      sent s' = 1%nat /\
      tasks s' =
        [finished (Raise (failed_to_fetch "anthropic" 503 "Service Unavailable"));
         finished (Return "old")]
  | None => False
  end.
Proof. by vm_compute. Qed.

(** C9 as stated fails.  Starting from an empty cache, when the first
    caller's request is answered with a 503 the second caller sends a
    request of its own: two requests go out and the callers end
    differently, one with the error and one with a key.  The same happens
    when both requests succeed but the first key has expired by the time
    the second caller checks the cache: two requests, two different keys. *)
Lemma second_request_after_failure :
  _cache cold !! "anthropic" = None /\
  match run (two_callers cold "anthropic") run_after_failure with
  | Some s' =>
      sent s' = 2%nat /\
      tasks s' =
        [finished (Raise (failed_to_fetch "anthropic" 503 "Service Unavailable"));
         finished (Return "abc")]
  | None => False
  end /\
  match run (two_callers cold "anthropic") run_after_short_lived with
  | Some s' =>
      sent s' = 2%nat /\
      tasks s' = [finished (Return "k1"); finished (Return "k2")]
  | None => False
  end.
Proof. vm_compute. repeat split. Qed.

End TaskFacts.

(** * Further properties of the code *)

(** ** Invariants of the polling loop *)

Section LoopInvariant.
Import Poller Design.

Variable P : AdaptiveTokenPoller -> Prop.
Hypothesis P_body : forall self same env,
  P self -> P (poller_after (loop_body self same env)).
Hypothesis P_stop : forall self, P self -> P (stop_polling self).

(** What every iteration and [stop_polling] preserve holds wherever the
    loop gets to. *)
Lemma while_running_invariant events : forall self same sleeps,
  P self -> P (poller_at (while_running self same sleeps events)).
Proof using P_body P_stop.
  induction events as [|[|env|env] events IH]; intros self same sleeps HP; cbn.
  - done.
  - apply IH, P_stop, HP.
  - destruct (running self); [|done].
    pose proof (P_body self same env HP) as Hbody.
    destruct (loop_body self same env); [by apply IH | done].
  - destruct (running self); [|done].
    pose proof (P_body (stop_polling self) same env (P_stop self HP)) as Hbody.
    destruct (loop_body (stop_polling self) same env); [by apply IH | done].
Qed.

End LoopInvariant.

(** ** The poller, its snapshot and the endpoints *)

Section PollerMore.
Import Poller Design Usage Examples MoreExamples.

#[local] Arguments _update_pattern : simpl never.
#[local] Arguments _calculate_next_poll_interval : simpl never.

Lemma poller_after_rotation self same env :
  poller_after (loop_body self same env) = self \/
  (exists new_token,
      fetch env = Returned new_token /\
      current_token self = None /\
      poller_after (loop_body self same env) =
        {| current_token := Some new_token;
           pattern := {| refresh_intervals := refresh_intervals (pattern self);
                         last_refresh_time := time_time env;
                         confidence_level := confidence_level (pattern self) |};
           polling_interval := polling_interval self;
           running := running self |}) \/
  (exists new_token,
      fetch env = Returned new_token /\
      rotation_detected self env = true /\
      poller_after (loop_body self same env) =
        (let pat := _update_pattern (pattern self)
                      (time_time env - last_refresh_time (pattern self))%Q in
         {| current_token := Some new_token;
            pattern := {| refresh_intervals := refresh_intervals pat;
                          last_refresh_time := time_time env;
                          confidence_level := confidence_level pat |};
            polling_interval := polling_interval self;
            running := running self |})).
Proof.
  unfold loop_body, asyncio_sleep, rotation_detected.
  destruct (fetch env) as [v|e].
  - destruct (current_token self) as [old|] eqn:Htok.
    + destruct (String.eqb_spec v old) as [->|Hne].
      * left. rewrite (locked_update_same _ _ _ _ Htok). by destruct (sleep_cancelled env).
      * right; right. exists v. rewrite (locked_update_rotation _ _ _ _ _ Htok Hne).
        split; [done|]. split; [done|]. by destruct (sleep_cancelled env).
    + right; left. exists v. rewrite (locked_update_first _ _ _ _ Htok).
      split; [done|]. split; [done|]. by destruct (sleep_cancelled env).
  - left. by destruct (isinstance_Exception e), (sleep_cancelled env).
Qed.

Lemma trimmed_grows l x : (length l <= length (trimmed (l ++ [x])))%nat.
Proof.
  unfold trimmed, len.
  destruct (Z.gtb_spec (Z.of_nat (length (l ++ [x]))) 5) as [Hgt|Hle].
  - destruct l as [|y l]; cbn in *; [lia|]. rewrite length_app. cbn. lia.
  - rewrite length_app. cbn. lia.
Qed.

Lemma update_pattern_grounded p x :
  0 <= confidence_level p ->
  (0 < confidence_level p -> (3 <= length (refresh_intervals p))%nat) ->
  0 <= confidence_level (_update_pattern p x) /\
  (0 < confidence_level (_update_pattern p x) ->
   (3 <= length (refresh_intervals (_update_pattern p x)))%nat).
Proof.
  intros H0 H3. rewrite update_pattern_window.
  pose proof (trimmed_grows (refresh_intervals p) (int x)) as Hgrow.
  unfold _update_pattern. cbn [confidence_level].
  fold (trimmed (refresh_intervals p ++ [int x])).
  set (w := trimmed _) in *.
  destruct (Z.geb_spec (len w) 3) as [Hge|Hlt]; unfold len in *.
  - split; [|lia]. destruct (Qltb _ _); lia.
  - split; [done|]. intros Hpos. specialize (H3 Hpos). lia.
Qed.

Lemma loop_body_grounded self same env :
  confidence_grounded self ->
  confidence_grounded (poller_after (loop_body self same env)).
Proof.
  intros [H0 H3].
  destruct (poller_after_rotation self same env)
    as [->|[(v & _ & _ & ->)|(v & _ & _ & ->)]]; [done|done|].
  by apply update_pattern_grounded.
Qed.

Lemma reachable_grounded self events :
  confidence_grounded self ->
  confidence_grounded (poller_at (start_polling self events)).
Proof.
  intros H. unfold start_polling, _poll_loop.
  apply while_running_invariant; [apply loop_body_grounded | done | done].
Qed.

(** X1.  Wherever the loop gets to from a fresh poller, with stops and
    cancellations, confidence is not negative, and it is positive only when
    the window holds at least three intervals; so the test
    [confidence_level >= 3 and refresh_intervals] of the schedule comes
    down to [confidence_level >= 3]. *)
Theorem confidence_is_grounded (events : list loop_event) :
  let p := pattern (poller_at (start_polling __init__ events)) in
  0 <= confidence_level p /\
  (0 < confidence_level p -> (3 <= length (refresh_intervals p))%nat) /\
  (confidence_level p >=? 3) && negb (bool_decide (refresh_intervals p = [])) =
    (confidence_level p >=? 3).
Proof.
  cbn zeta. destruct (reachable_grounded __init__ events) as [H0 H3].
  { split; cbn; lia. }
  split; [done|]. split; [done|].
  destruct (Z.geb_spec (confidence_level (pattern (poller_at (start_polling __init__ events)))) 3)
    as [Hge|Hlt]; [|done].
  cbn. case_bool_decide as Hnil; [|done].
  rewrite Hnil in H3. cbn in H3. lia.
Qed.

Lemma calculated_sleep_values p same now :
  let s := _calculate_next_poll_interval p same now in
  s = 30 \/ s = 60 \/ s = 120 \/ s = 300.
Proof.
  unfold _calculate_next_poll_interval.
  repeat match goal with
         | |- context [if ?b then _ else _] => destruct b
         end; cbn; tauto.
Qed.

Lemma loop_body_sleep_values self same env self' same' s :
  loop_body self same env = Slept self' same' s ->
  s = 30 \/ s = 60 \/ s = 120 \/ s = 300.
Proof.
  unfold loop_body, asyncio_sleep.
  destruct (fetch env) as [v|e].
  - destruct (locked_update _ _ _ _) as [self1 same1].
    destruct (sleep_cancelled env); [done|]. intros [= <- <- <-].
    apply calculated_sleep_values.
  - destruct (isinstance_Exception e); [|done].
    destruct (sleep_cancelled env); [done|]. intros [= <- <- <-]. tauto.
Qed.

Lemma while_running_sleep_values events : forall self same sleeps,
  Forall (fun s => s = 30 \/ s = 60 \/ s = 120 \/ s = 300) sleeps ->
  Forall (fun s => s = 30 \/ s = 60 \/ s = 120 \/ s = 300)
         (sleeps_of (while_running self same sleeps events)).
Proof.
  induction events as [|[|env|env] events IH]; intros self same sleeps Hs; cbn.
  - done.
  - by apply IH.
  - destruct (running self); [|done].
    destruct (loop_body self same env) as [self' same' s|self' e] eqn:Hbody; [|done].
    apply IH. apply Forall_app. split; [done|].
    apply Forall_singleton. eapply loop_body_sleep_values, Hbody.
  - destruct (running self); [|done].
    destruct (loop_body (stop_polling self) same env)
      as [self' same' s|self' e] eqn:Hbody; [|done].
    apply IH. apply Forall_app. split; [done|].
    apply Forall_singleton. eapply loop_body_sleep_values, Hbody.
Qed.

(** X2.  Every sleep of the loop, from any poller and under any events,
    lasts 30, 60, 120 or 300 seconds. *)
Theorem sleeps_are_bounded (self : AdaptiveTokenPoller) (events : list loop_event) :
  Forall (fun s => s = 30 \/ s = 60 \/ s = 120 \/ s = 300)
         (sleeps_of (start_polling self events)).
Proof. apply while_running_sleep_values. constructor. Qed.

Lemma while_running_app events1 : forall events2 self same sleeps,
  while_running self same sleeps (events1 ++ events2) =
  match while_running self same sleeps events1 with
  | Suspended self' same' sleeps' => while_running self' same' sleeps' events2
  | ended => ended
  end.
Proof.
  induction events1 as [|[|env|env] events1 IH]; intros events2 self same sleeps; cbn.
  - done.
  - apply IH.
  - destruct (running self); [|done].
    destruct (loop_body self same env); [apply IH | done].
  - destruct (running self); [|done].
    destruct (loop_body (stop_polling self) same env); [apply IH | done].
Qed.

Lemma iteration_token self same r now :
  exists self1 same1 seconds,
    loop_body self same {| fetch := fetch_of r; time_time := now;
                           sleep_cancelled := false |} =
      Slept self1 same1 seconds /\
    running self1 = running self /\
    current_token self1 =
      match r with
      | credential value => Some value
      | failure _ => current_token self
      end.
Proof.
  unfold loop_body, asyncio_sleep, locked_update.
  cbn [fetch time_time sleep_cancelled].
  destruct r as [v|msg]; cbn [fetch_of isinstance_Exception].
  - case_bool_decide as Hne.
    + by eexists _, _, _.
    + eexists _, _, _. split; [done|]. split; [done|].
      destruct (current_token self) as [old|]; congruence.
  - by eexists _, _, _.
Qed.

Lemma loop_token rs : forall self same sleeps,
  running self = true ->
  exists self' same' sleeps',
    while_running self same sleeps (events_of rs) =
      Suspended self' same' sleeps' /\
    current_token self' =
      match last_credential rs with
      | Some value => Some value
      | None => current_token self
      end.
Proof.
  induction rs as [|[r now] rs IH]; intros self same sleeps Hrun.
  - by exists self, same, sleeps.
  - destruct (iteration_token self same r now)
      as (self1 & same1 & seconds & Hbody & Hrun1 & Htok).
    destruct (IH self1 same1 (sleeps ++ [seconds])) as (self' & same' & sleeps' & Hloop & Htok');
      [congruence|].
    exists self', same', sleeps'.
    cbn [events_of map while_running fst snd]. fold (events_of rs).
    rewrite Hrun, Hbody, Hloop. split; [done|].
    rewrite Htok'. unfold last_credential. cbn [omap fst].
    fold (last_credential rs). fold (@omap list _).
    destruct r as [v|msg]; cbn.
    + rewrite last_cons. fold (last_credential rs).
      rewrite Htok. by destruct (last_credential rs).
    + fold (last_credential rs). rewrite Htok. done.
Qed.

(** X3.  After any sequence of responses the current token is the
    credential returned last, failures left aside.  [get_current_token]
    then returns that token with its age, except that it raises "No token
    available yet" when nothing was fetched so far or when the credential
    returned last is the empty string. *)
Theorem snapshot_serves_last_credential
    (rs : list (credential_response * Q)) (now : Q) :
  exists self same sleeps,
    start_polling __init__ (events_of rs) = Suspended self same sleeps /\
    current_token self = last_credential rs /\
    match last_credential rs with
    | Some value =>
        if String.eqb value EmptyString
        then Server.get_current_token self now =
               inl (Exception "No token available yet")
        else exists info,
               Server.get_current_token self now = inr info /\
               Server.token info = value /\
               Server.age_seconds info =
                 (now - last_refresh_time (pattern self))%Q
    | None =>
        Server.get_current_token self now =
          inl (Exception "No token available yet")
    end.
Proof.
  unfold start_polling, _poll_loop.
  edestruct (loop_token rs) as (self & same & sleeps & Hloop & Htok);
    [|rewrite Hloop]; [done|].
  exists self, same, sleeps. split; [done|].
  assert (current_token self = last_credential rs) as Hlast.
  { rewrite Htok. by destruct (last_credential rs). }
  split; [done|]. unfold Server.get_current_token. rewrite Hlast.
  destruct (last_credential rs) as [v|]; [|done].
  destruct (String.eqb v EmptyString); [done|]. by eexists.
Qed.

(** X4.  The loop never writes [polling_interval]: wherever it gets to
    from a fresh poller the attribute is 30, and that is what
    [get_current_token] reports, whatever the loop sleeps. *)
Theorem reported_polling_interval_is_constant
    (events : list loop_event) (now : Q) :
  let self := poller_at (start_polling __init__ events) in
  polling_interval self = 30 /\
  forall info, Server.get_current_token self now = inr info ->
               Server.polling_interval info = 30.
Proof.
  cbn zeta.
  assert (polling_interval (poller_at (start_polling __init__ events)) = 30) as H30.
  { unfold start_polling, _poll_loop.
    apply (while_running_invariant (fun self => polling_interval self = 30));
      [|done|done].
    intros self same env Hself.
    by destruct (poller_after_rotation self same env)
      as [->|[(v & _ & _ & ->)|(v & _ & _ & ->)]]. }
  split; [done|]. intros info. unfold Server.get_current_token.
  destruct (current_token _) as [tok|]; [|done].
  destruct (String.eqb tok EmptyString); [done|]. by intros [= <-].
Qed.

(** X5.  On every poller the loop can produce from a fresh one,
    [get_stats] reports the strategy "adaptive" exactly when the schedule
    works from the learned average (confidence at least 3 over a non-empty
    window), reports "discovery" otherwise, and gives no average exactly
    when no interval has been observed. *)
Theorem stats_strategy_matches_policy (events : list loop_event) (now : Q) :
  let self := poller_at (start_polling __init__ events) in
  let report := Server.get_stats self now in
  (Server.current_polling_strategy report = "adaptive" <->
   3 <= confidence_level (pattern self) /\ refresh_intervals (pattern self) <> []) /\
  (Server.current_polling_strategy report = "adaptive" \/
   Server.current_polling_strategy report = "discovery") /\
  (Server.average_interval report = None <->
   refresh_intervals (pattern self) = []).
Proof.
  cbn zeta. destruct (reachable_grounded __init__ events) as [H0 H3]; [split; cbn; lia|].
  unfold Server.get_stats, Server.strategy. cbn.
  set (p := pattern (poller_at (start_polling __init__ events))) in *.
  split; [|split].
  - destruct (Z.geb_spec (confidence_level p) 3) as [Hge|Hlt].
    + split; [|done]. intros _. split; [done|]. intros Hnil.
      rewrite Hnil in H3. cbn in H3. lia.
    + split; [done|]. lia.
  - destruct (confidence_level p >=? 3); tauto.
  - case_bool_decide; split; done.
Qed.

(** X6.  [health_check] never raises.  A healthy report always has
    [has_token] true and the age of a non-empty current token; the report
    is unhealthy, with the error "No token available yet", exactly when the
    current token is missing or empty. *)
Theorem health_reports_token (self : AdaptiveTokenPoller) (now : Q) :
  match Server.health_check self now with
  | inr (Server.healthy has_token token_age last_refresh) =>
      has_token = true /\
      exists value, current_token self = Some value /\ value <> EmptyString /\
                    token_age = (now - last_refresh_time (pattern self))%Q
  | inr (Server.unhealthy error) =>
      error = "No token available yet" /\
      (current_token self = None \/ current_token self = Some EmptyString)
  | inl _ => False
  end.
Proof.
  unfold Server.health_check, Server.get_current_token.
  destruct (current_token self) as [tok|]; [|by auto].
  destruct (String.eqb_spec tok EmptyString) as [->|Hne]; cbn; [by auto|].
  destruct (String.eqb_spec tok EmptyString); [done|]. split; [done|]. by exists tok.
Qed.

Lemma loop_body_cancelled self same env :
  Server.cancelled env = true ->
  exists self', loop_body self same env = Propagated self' CancelledError.
Proof.
  unfold Server.cancelled, loop_body, asyncio_sleep.
  destruct (fetch env) as [v|[msg|]]; cbn.
  - intros ->. destruct (locked_update _ _ _ _). by eexists.
  - intros ->. by eexists.
  - intros _. by eexists.
Qed.

(** X7.  The shutdown of [lifespan] never raises: the only exception the
    polling task can end with is its cancellation, which the shutdown
    catches.  When the cancellation finds the task in a fetch or in one of
    its sleeps, the shutdown completes. *)
Theorem shutdown_never_raises
    (self : AdaptiveTokenPoller) (serving : list loop_event) (last : poll_env) :
  (forall events e,
      Server.lifespan_shutdown (start_polling self events) <>
      Server.shutdown_raised e) /\
  (Server.cancelled last = true ->
   Server.lifespan self serving last = Server.shut_down).
Proof.
  split.
  - intros events e. unfold Server.lifespan_shutdown, Server.await_task.
    destruct (start_polling self events) as [| self' e' sleeps |] eqn:Hrun; try done.
    apply while_running_aborts in Hrun as ->. done.
  - intros Hcancel. unfold Server.lifespan, start_polling, _poll_loop.
    rewrite while_running_app.
    destruct (while_running _ 0 [] serving) as [| self' e' sleeps | self' same' sleeps] eqn:Hrun.
    + done.
    + apply while_running_aborts in Hrun as ->. done.
    + cbn. destruct (running self'); [|done].
      by destruct (loop_body_cancelled self' same' last Hcancel) as [self2 ->].
Qed.

(** A shutdown right after start, while the loop sleeps after a failed
    fetch. *)
Lemma shutdown_in_fallback_sleep :
  Server.lifespan Poller.__init__ [] cancelled_in_fallback_sleep = Server.shut_down.
Proof.
  destruct (shutdown_never_raises Poller.__init__ [] cancelled_in_fallback_sleep)
    as [_ Hdown].
  by apply Hdown.
Defined.

Lemma stop_polling_stopped self : running self = false -> stop_polling self = self.
Proof. destruct self; cbn; by intros ->. Qed.

(** A stopped loop exits at its next test. *)
Lemma while_running_stopped events : forall self same sleeps,
  running self = false ->
  while_running self same sleeps events =
    if existsb tests_running events then Exited self sleeps
    else Suspended self same sleeps.
Proof.
  induction events as [|[|env|env] events IH]; intros self same sleeps Hstop.
  - done.
  - cbn [while_running existsb tests_running orb].
    rewrite (stop_polling_stopped self Hstop). by apply IH.
  - cbn [while_running existsb tests_running orb]. by rewrite Hstop.
  - cbn [while_running existsb tests_running orb]. by rewrite Hstop.
Qed.

(** An iteration on a stopped poller does what it does on the running
    one, and leaves the poller stopped. *)
Lemma loop_body_stopped self same env :
  loop_body (stop_polling self) same env =
    match loop_body self same env with
    | Slept self' same' seconds => Slept (stop_polling self') same' seconds
    | Propagated self' e => Propagated (stop_polling self') e
    end.
Proof.
  unfold loop_body, asyncio_sleep, locked_update.
  destruct (fetch env) as [v|e].
  - cbn [stop_polling current_token pattern polling_interval running].
    case_bool_decide.
    + by destruct (sleep_cancelled env).
    + by destruct (sleep_cancelled env).
  - destruct (isinstance_Exception e); [|done]. by destruct (sleep_cancelled env).
Qed.

(** X8.  [stop_polling] ends the loop at its next test of
    [self.running], which is the only place where the flag is read.  Called
    while the loop is in a sleep, it leaves the poller as it is but for the
    flag; the loop fetches and sleeps no more and exits when it is resumed.
    Called while the loop is in the fetch of an iteration, it does not cut
    that iteration short: the iteration does what it would have done (the
    state is updated and one more sleep is taken, or the cancellation of
    the task goes through) and the loop exits at the test that follows; a
    stop during the fetch thus has the effect of a stop during the sleep
    of the same iteration. *)
Theorem stop_ends_loop_at_next_test
    (self : AdaptiveTokenPoller) (same : Z) (sleeps : list Z)
    (env : poll_env) (events : list loop_event) :
  while_running self same sleeps (stop_polling_called :: events) =
    (if existsb tests_running events then Exited (stop_polling self) sleeps
     else Suspended (stop_polling self) same sleeps) /\
  (running self = true ->
   while_running self same sleeps (stopped_in_fetch env :: events) =
     match loop_body self same env with
     | Slept self' same' seconds =>
         if existsb tests_running events
         then Exited (stop_polling self') (sleeps ++ [seconds])
         else Suspended (stop_polling self') same' (sleeps ++ [seconds])
     | Propagated self' e => Aborted (stop_polling self') e sleeps
     end) /\
  (running self = true ->
   forall self' same' seconds,
     loop_body self same env = Slept self' same' seconds ->
     while_running self same sleeps (resumed env :: stop_polling_called :: events) =
     while_running self same sleeps (stopped_in_fetch env :: events)).
Proof.
  split; [|split].
  - cbn [while_running]. by apply while_running_stopped.
  - intros Hrun. cbn [while_running]. rewrite Hrun, loop_body_stopped.
    destruct (loop_body self same env) as [self' same' seconds|self' e]; [|done].
    by apply while_running_stopped.
  - intros Hrun self' same' seconds Hbody. cbn [while_running].
    by rewrite Hrun, loop_body_stopped, Hbody.
Qed.

End PollerMore.

(** ** The provider in use *)

Section ProviderMore.
Import KeyProvider Design Usage Examples MoreExamples.

Lemma check_cache_Some self p now api_key :
  check_cache self p now = Some api_key ->
  exists entry, _cache self !! p = Some entry /\ key entry = api_key /\
                (now <= expires_at entry)%Q.
Proof.
  unfold check_cache, is_expired, Qgtb.
  destruct (_cache self !! p) as [entry|]; [|done].
  destruct (Qltb (expires_at entry) now) eqn:Hlt; cbn; [done|].
  intros [= <-]. exists entry. by apply Qltb_ge in Hlt.
Qed.

(** X9.  A call to [fetch_api_key] sends at most one request, and when it
    sends none the provider is left exactly as it was; the call leaves the
    entries of all other keys alone; when it raises, the whole cache is as
    before; and a key it returns is the key cached under that name after
    the call. *)
Theorem fetch_touches_only_its_key
    (self : DynamicKeyProvider) (p : string) (env : call_env) :
  let out := fetch_api_key self p env in
  (requests out <= 1)%nat /\
  (requests out = 0%nat -> after out = self) /\
  (forall q, q <> p -> _cache (after out) !! q = _cache self !! q) /\
  (forall e, returned out = Raise e -> _cache (after out) = _cache self) /\
  (forall api_key, returned out = Return api_key ->
     exists entry, _cache (after out) !! p = Some entry /\ key entry = api_key).
Proof.
  cbn zeta. split; [|split; [|split; [|split]]].
  - destruct (check_cache self p (time_check env)) as [v|] eqn:Hc.
    + rewrite (fetch_hit _ _ _ _ Hc). cbn. lia.
    + by rewrite (fetch_miss _ _ _ Hc).
  - destruct (check_cache self p (time_check env)) as [v|] eqn:Hc.
    + by rewrite (fetch_hit _ _ _ _ Hc).
    + by rewrite (fetch_miss _ _ _ Hc).
  - intros q Hq. by apply fetch_cache_other.
  - intros e. destruct (check_cache self p (time_check env)) as [v|] eqn:Hc.
    + by rewrite (fetch_hit _ _ _ _ Hc).
    + rewrite (fetch_miss _ _ _ Hc). cbn [returned after]. unfold fetch_new_key.
      destruct (try_block _ _ _ _); cbn; [|done]. intros _. apply get_client_cache.
  - intros v. destruct (check_cache self p (time_check env)) as [v'|] eqn:Hc.
    + rewrite (fetch_hit _ _ _ _ Hc). cbn. intros [= <-].
      destruct (check_cache_Some _ _ _ _ Hc) as (entry & He & Hk & _). by exists entry.
    + rewrite (fetch_miss _ _ _ Hc). cbn [returned after]. unfold fetch_new_key.
      destruct (try_block _ _ _ _) as [e|entry]; cbn; [done|]. intros [= <-].
      exists entry. split; [apply lookup_insert_eq|done].
Qed.




(** A call cancelled during its request, met while the cached entry has
    expired: the cancellation goes through and the cache is as before. *)
Example cancelled_call_raises_cancellation :
  let out := fetch_api_key stale "anthropic"
               (at_time 1000 (http_raised CancelledError)) in
  returned out = Raise CancelledError /\ _cache (after out) = _cache stale.
Proof. by vm_compute. Qed.

Lemma try_block_not_dict self p data now :
  is_dict data = false ->
  exists e, try_block self p (http_json data) now = inl e /\
            except_clauses self p e = unexpected_error e.
Proof.
  intros Hd. unfold try_block, handle_formats. cbn [mbind raising_bind raise mret raising_ret].
  destruct data as [| b | x | s | items | fields]; try done; cbn.
  - by exists TypeError.
  - by exists TypeError.
  - by exists TypeError.
  - destruct (String.index 0 "token" s); cbn; [by exists TypeError|].
    destruct (String.index 0 "api_key" s); cbn; [by exists TypeError|].
    by eexists.
  - destruct (existsb _ items); cbn; [by exists TypeError|].
    destruct (existsb _ items); cbn; [by exists TypeError|].
    by eexists.
Qed.

(** X11.  A body that decodes to something else than a dict (a list, a
    string, a number, [null]) makes a call that missed the cache raise the
    "unexpected error"; nothing is cached. *)
Theorem body_that_is_no_dict_is_refused
    (self : DynamicKeyProvider) (p : string) (env : call_env) (data : json) :
  response env = http_json data ->
  is_dict data = false ->
  check_cache self p (time_check env) = None ->
  let out := fetch_api_key self p env in
  (exists e, returned out = Raise (unexpected_error e)) /\
  _cache (after out) = _cache self.
Proof.
  intros Hr Hd Hc. cbn zeta. rewrite (fetch_miss _ _ _ Hc), Hr. cbn [returned after].
  destruct (try_block_not_dict (_get_client self) p data (time_store env) Hd)
    as (e & Htry & Hex).
  rewrite (fetch_new_key_raises _ _ _ _ e Htry). cbn. rewrite Hex.
  split; [by exists e|apply get_client_cache].
Qed.

(** The body [["token"]], met while the cached entry has expired. *)
Lemma list_body_is_refused :
  let out := fetch_api_key stale "anthropic" (at_time 1000 (http_json list_body)) in
  (exists e, returned out = Raise (unexpected_error e)) /\
  _cache (after out) = _cache stale.
Proof.
  apply (body_that_is_no_dict_is_refused stale "anthropic"
           (at_time 1000 (http_json list_body)) list_body);
    by vm_compute.
Defined.

Lemma fetch_keys_nonempty self p env :
  keys_nonempty self ->
  keys_nonempty (after (fetch_api_key self p env)) /\
  returned (fetch_api_key self p env) <> Return EmptyString.
Proof.
  intros Hinv.
  destruct (check_cache self p (time_check env)) as [v|] eqn:Hc.
  - rewrite (fetch_hit _ _ _ _ Hc). cbn. split; [done|].
    destruct (check_cache_Some _ _ _ _ Hc) as (entry & He & <- & _).
    intros [= Hk]. by apply (Hinv p entry).
  - rewrite (fetch_miss _ _ _ Hc). cbn [returned after]. unfold fetch_new_key.
    destruct (try_block _ _ _ _) as [e|entry] eqn:Htry; cbn.
    + split; [|done]. intros q entry. rewrite get_client_cache. apply Hinv.
    + destruct (try_block_inv _ _ _ _ _ Htry) as (_ & _ & _ & _ & _ & Hne & _).
      split; [|congruence]. intros q entry'. unfold with_cache. cbn [_cache].
      rewrite get_client_cache. intros Hq.
      apply lookup_insert_Some in Hq as [[_ <-]|[_ Hq]]; [done|].
      by apply (Hinv q).
Qed.

Lemma clear_cache_keys_nonempty self name :
  keys_nonempty self -> keys_nonempty (clear_cache self name).
Proof.
  intros Hinv q entry. unfold clear_cache.
  destruct name as [k|]; [destruct (String.eqb k EmptyString)|]; cbn.
  - by rewrite lookup_empty.
  - intros Hq. apply lookup_delete_Some in Hq as [_ Hq]. by apply (Hinv q).
  - by rewrite lookup_empty.
Qed.

Lemma close_cache self : _cache (close self) = _cache self.
Proof. unfold close. by destruct (_client self). Qed.

Lemma session_keys_nonempty ops : forall self,
  keys_nonempty self ->
  keys_nonempty (session self ops).1 /\
  Forall (fun out => returned out <> Return EmptyString) (session self ops).2.
Proof.
  induction ops as [|[p env|name|] ops IH]; intros self Hinv; cbn [session].
  - by split.
  - destruct (fetch_keys_nonempty self p env Hinv) as [Hinv' Hret].
    destruct (IH _ Hinv') as [Hfin Hall].
    destruct (session _ ops) as [self' outs]. cbn in *. split; [done|].
    by constructor.
  - apply IH. by apply clear_cache_keys_nonempty.
  - apply IH. intros q entry. rewrite close_cache. apply Hinv.
Qed.

(** X12.  In any session on a new provider (fetches, cache clearings,
    closings in any order) no fetch returns the empty string, and no cached
    key is empty. *)
Theorem sessions_never_return_an_empty_key
    (cfg : DynamicKeyConfig) (ops : list operation) :
  Forall (fun out => returned out <> Return EmptyString)
         (session (__init__ cfg) ops).2 /\
  keys_nonempty (session (__init__ cfg) ops).1.
Proof.
  destruct (session_keys_nonempty ops (__init__ cfg)) as [H1 H2]; [|done].
  intros q entry. cbn. by rewrite lookup_empty.
Qed.

Lemma py_max_fits n : fits_float (py_max 60 (Int n)) <-> n < float_limit.
Proof.
  rewrite py_max_int. cbn [fits_float].
  assert (60 < float_limit) by (by vm_compute). lia.
Qed.

(** X13.  A key fetched in the token format with a numeric
    [age_seconds] is returned and stays valid for at least 60 seconds: any
    call for that name within 60 seconds of the store is answered from the
    cache.  This holds for every float age, and for an int age as long as
    [1800 - age_seconds] is an int that a float can take; beyond that the
    sum [time.time() + expires_in] raises [OverflowError], the caller gets
    the "unexpected error" and nothing is cached. *)
Theorem token_entry_lasts_a_minute
    (self : DynamicKeyProvider) (p : string) (env : call_env)
    (fields : gmap string json) (value : string) (age : number) :
  response env = http_json (JObj fields) ->
  fields !! "token" = Some (JStr value) -> value <> EmptyString ->
  fields !! "age_seconds" = Some (JNum age) ->
  check_cache self p (time_check env) = None ->
  let out := fetch_api_key self p env in
  ((forall n, age = Int n -> 1800 - n < float_limit) ->
   returned out = Return value /\
   forall env', (time_check env' <= time_store env + (60 # 1))%Q ->
                fetch_api_key (after out) p env' = cache_hit (after out) value) /\
  (forall n, age = Int n -> float_limit <= 1800 - n ->
     returned out = Raise (unexpected_error OverflowError) /\
     _cache (after out) = _cache self).
Proof.
  intros Hr Ht Hv Ha Hc. cbn zeta.
  assert (handle_formats (cache_duration_seconds (config self)) (JObj fields) =
          inr (JStr value, JNum (py_max 60 (int_minus 1800 age)))) as Hf
    by (by rewrite handle_formats_obj, Ht, Ha).
  split.
  - intros Hfit.
    rewrite (fetch_stores self p env (JObj fields) value _ _ Hc Hr Hf Hv eq_refl).
    2:{ destruct age as [n|x]; cbn [int_minus].
        - apply py_max_fits. by apply Hfit.
        - unfold py_max. by destruct (Qgtb _ _). }
    cbn [returned after]. split; [done|]. intros env' Hsoon.
    apply fetch_hit.
    set (entry := {| key := value;
                     expires_at :=
                       time_store env + seconds (py_max 60 (int_minus 1800 age)) |}).
    apply (check_cache_valid _ p entry); [apply lookup_insert_eq|].
    cbn. eapply Qle_trans; [exact Hsoon|].
    apply Qplus_le_r. rewrite py_max_Qmax. apply Q.le_max_l.
  - intros n -> Hbig.
    rewrite (fetch_overflows self p env (JObj fields) (JStr value) _
               (py_max 60 (int_minus 1800 (Int n))) Hc Hr Hf).
    + split; [done|]. apply get_client_cache.
    + cbn. by destruct (String.eqb_spec value EmptyString).
    + done.
    + cbn [int_minus]. rewrite py_max_fits. lia.
Qed.

(** A token seen 1700 seconds ago, fetched at time 1000, still serves the
    call made at time 1060. *)
Lemma aged_token_serves_next_call :
  let out := fetch_api_key cold "anthropic"
               (at_time 1000 (http_json (JObj aged_token_fields))) in
  fetch_api_key (after out) "anthropic" (at_time 1060 (http_raised unavailable)) =
    cache_hit (after out) "abc".
Proof.
  destruct (token_entry_lasts_a_minute cold "anthropic"
              (at_time 1000 (http_json (JObj aged_token_fields)))
              aged_token_fields "abc" (Int 1700)) as [Hfits _];
    [by vm_compute..|].
  destruct Hfits as [_ Hhit].
  { intros n [= <-]. by vm_compute. }
  apply Hhit. by vm_compute.
Defined.

Lemma get_client_clear_cache self name :
  _get_client (clear_cache self name) =
  with_cache (_get_client self) (_cache (clear_cache self name)).
Proof.
  unfold clear_cache, _get_client, with_cache.
  destruct name as [k|]; [destruct (String.eqb k EmptyString)|];
    cbn; destruct (_client self) eqn:E; cbn; rewrite ?E; done.
Qed.

Lemma try_block_with_cache self cache p response now :
  try_block (with_cache self cache) p response now = try_block self p response now.
Proof. done. Qed.

(** X14.  After [clear_cache()] and after [clear_cache("")] every call
    sends a request, whatever the key: the empty name clears the whole
    cache.  After [clear_cache(q)] the next call for [q] sends a request.
    Clearing another key [k] removes the entry of [k] and changes neither
    the result nor the number of requests of a call for [q]. *)
Theorem clearing_forces_a_request
    (self : DynamicKeyProvider) (q : string) (env : call_env) :
  requests (fetch_api_key (clear_cache self None) q env) = 1%nat /\
  requests (fetch_api_key (clear_cache self (Some EmptyString)) q env) = 1%nat /\
  (q <> EmptyString ->
   requests (fetch_api_key (clear_cache self (Some q)) q env) = 1%nat) /\
  (forall k, k <> EmptyString -> k <> q ->
     _cache (clear_cache self (Some k)) !! k = None /\
     returned (fetch_api_key (clear_cache self (Some k)) q env) =
       returned (fetch_api_key self q env) /\
     requests (fetch_api_key (clear_cache self (Some k)) q env) =
       requests (fetch_api_key self q env)).
Proof.
  split; [|split; [|split]].
  - rewrite fetch_miss; [done|]. unfold check_cache. cbn. by rewrite lookup_empty.
  - rewrite fetch_miss; [done|]. unfold check_cache. cbn. by rewrite lookup_empty.
  - intros Hq. rewrite fetch_miss; [done|]. unfold check_cache, clear_cache.
    destruct (String.eqb_spec q EmptyString); [done|]. cbn. by rewrite lookup_delete_eq.
  - intros k Hk Hkq.
    assert (clear_cache self (Some k) = with_cache self (delete k (_cache self))) as Hclear.
    { unfold clear_cache. by destruct (String.eqb_spec k EmptyString). }
    split; [rewrite Hclear; cbn; apply lookup_delete_eq|].
    assert (check_cache (clear_cache self (Some k)) q (time_check env) =
            check_cache self q (time_check env)) as Hcheck.
    { rewrite Hclear. unfold check_cache. cbn. by rewrite lookup_delete_ne. }
    unfold fetch_api_key. rewrite Hcheck.
    destruct (check_cache self q (time_check env)); [done|].
    rewrite get_client_clear_cache. unfold fetch_new_key.
    rewrite try_block_with_cache.
    by destruct (try_block _ _ _ _).
Qed.

Lemma fetch_keeps_client self p env c :
  _client self = Some c ->
  _client (after (fetch_api_key self p env)) = Some c /\
  config (after (fetch_api_key self p env)) = config self.
Proof.
  intros Hc.
  assert (_get_client self = self) as Hget by (unfold _get_client; by rewrite Hc).
  unfold fetch_api_key. destruct (check_cache _ _ _); [done|].
  rewrite Hget. unfold fetch_new_key. by destruct (try_block _ _ _ _).
Qed.

Lemma session_keeps_client ops : forall self c,
  _client self = Some c ->
  Forall (fun op => op <> close_op) ops ->
  _client (session self ops).1 = Some c /\
  config (session self ops).1 = config self.
Proof.
  induction ops as [|[p env|name|] ops IH]; intros self c Hc Hall; cbn [session].
  - done.
  - apply Forall_cons in Hall as [_ Hall].
    destruct (fetch_keeps_client self p env c Hc) as [Hc' Hcfg].
    destruct (IH _ c Hc' Hall) as [Hfin Hcfg'].
    destruct (session _ ops) as [self' outs]. cbn in *. split; [done|congruence].
  - apply Forall_cons in Hall as [_ Hall].
    destruct (IH (clear_cache self name) c) as [Hfin Hcfg']; [|done|].
    { unfold clear_cache. by destruct name as [k|]; [destruct (String.eqb k EmptyString)|]. }
    split; [done|]. rewrite Hcfg'. unfold clear_cache.
    by destruct name as [k|]; [destruct (String.eqb k EmptyString)|].
  - apply Forall_cons in Hall as [Hne _]. done.
Qed.

(** X15.  Once the HTTP client exists, a session without [close] keeps
    that very client and leaves the configuration as it is: fetches and
    cache clearings never create a second client. *)
Theorem client_is_created_once
    (self : DynamicKeyProvider) (ops : list operation) (c : AsyncClient) :
  _client self = Some c ->
  Forall (fun op => op <> close_op) ops ->
  _client (session self ops).1 = Some c /\
  config (session self ops).1 = config self.
Proof. apply session_keeps_client. Qed.

(** A fetch, a clearing of the cache and a failing fetch on a provider
    whose client exists. *)
Lemma busy_session_keeps_client :
  _client (session with_client busy_session).1 = _client with_client /\
  config (session with_client busy_session).1 = config with_client.
Proof.
  apply (client_is_created_once with_client busy_session
           {| client_headers := ∅ |}).
  - by vm_compute.
  - repeat constructor; done.
Defined.

(** X16.  The first client of a provider: creating it again changes
    nothing and the cache is untouched; a non-empty [auth_token] is sent as
    [Authorization: Bearer ...], overriding a configured header of that
    name; all other headers are the configured ones; and when the
    configured dict of headers is non-empty it is that dict the client gets,
    so that the [Authorization] entry shows up in the configuration too. *)
Theorem client_sends_bearer_token (cfg : DynamicKeyConfig) :
  let self := _get_client (__init__ cfg) in
  _get_client self = self /\
  _cache self = ∅ /\
  exists c,
    _client self = Some c /\
    (forall t, auth_token cfg = Some t -> t <> EmptyString ->
       client_headers c !! "Authorization" = Some ("Bearer " +:+ t)) /\
    (forall name, name <> "Authorization" ->
       client_headers c !! name = (headers cfg ≫= (.!! name))) /\
    (forall h, headers cfg = Some h -> h <> ∅ ->
       headers (config self) = Some (client_headers c)).
Proof.
  cbn zeta. unfold _get_client at 2 3 4 5. cbn.
  split; [done|]. split; [done|]. eexists. split; [done|]. split; [|split].
  - intros t -> Ht. destruct (String.eqb_spec t EmptyString); [done|].
    cbn. apply lookup_insert_eq.
  - intros name Hname.
    assert (default ∅ (match headers cfg with
                       | Some h => if bool_decide (size h = 0%nat) then None else Some h
                       | None => None
                       end) !! name = headers cfg ≫= (.!! name)) as Hbase.
    { destruct (headers cfg) as [h|]; cbn; [|apply lookup_empty].
      case_bool_decide as Hsize; cbn; [|done].
      apply map_size_empty_iff in Hsize as ->. by rewrite !lookup_empty. }
    destruct (auth_token cfg) as [t|]; [destruct (String.eqb t EmptyString)|]; cbn;
      try done. by rewrite lookup_insert_ne.
  - intros h -> Hh. cbn. case_bool_decide as Hsize; [|done].
    by apply map_size_empty_iff in Hsize.
Qed.

(** X17.  [close] is idempotent, drops the client and keeps the cache: a
    call after [close] sends as many requests as it would have sent before;
    a key still valid is served from the cache without a client being
    created, and a call that misses creates a new client. *)
Theorem close_keeps_the_keys
    (self : DynamicKeyProvider) (p : string) (env : call_env) :
  close (close self) = close self /\
  _client (close self) = None /\
  _cache (close self) = _cache self /\
  requests (fetch_api_key (close self) p env) =
    requests (fetch_api_key self p env) /\
  match check_cache self p (time_check env) with
  | Some api_key => fetch_api_key (close self) p env = cache_hit (close self) api_key
  | None => _client (after (fetch_api_key (close self) p env)) <> None
  end.
Proof.
  assert (_client (close self) = None) as Hnone by (unfold close; by destruct (_client self) eqn:E).
  assert (check_cache (close self) p (time_check env) =
          check_cache self p (time_check env)) as Hcheck
    by (unfold check_cache; by rewrite close_cache).
  split; [unfold close at 1; by rewrite Hnone|]. split; [done|].
  split; [apply close_cache|]. split.
  - unfold fetch_api_key. rewrite Hcheck.
    destruct (check_cache self p (time_check env)); [done|].
    by destruct (fetch_new_key _ _ _ _), (fetch_new_key _ _ _ _).
  - destruct (check_cache self p (time_check env)) as [v|] eqn:Hc.
    + apply fetch_hit. by rewrite Hcheck.
    + rewrite fetch_miss by (by rewrite Hcheck). cbn [after].
      unfold fetch_new_key, _get_client. rewrite Hnone.
      by destruct (try_block _ _ _ _).
Qed.

(** X18.  In the api_key format the field [expires_in] is taken as
    given.  When it is a float, or an int that a float can take, the entry
    stored expires at [now + expires_in]; with a lifetime of zero or less
    every later call for that name sends a request again.  When it is an
    int beyond that range, the sum [time.time() + expires_in] raises
    [OverflowError]: the caller gets the "unexpected error" and nothing is
    cached. *)
Theorem lifetime_is_taken_as_given
    (self : DynamicKeyProvider) (p : string) (env : call_env)
    (fields : gmap string json) (value : string) (lifetime : number) :
  response env = http_json (JObj fields) ->
  fields !! "token" = None ->
  fields !! "api_key" = Some (JStr value) -> value <> EmptyString ->
  fields !! "expires_in" = Some (JNum lifetime) ->
  check_cache self p (time_check env) = None ->
  let out := fetch_api_key self p env in
  (fits_float lifetime ->
   returned out = Return value /\
   _cache (after out) !! p =
     Some {| key := value; expires_at := time_store env + seconds lifetime |} /\
   ((seconds lifetime <= 0)%Q ->
    forall env', (time_store env < time_check env')%Q ->
                 requests (fetch_api_key (after out) p env') = 1%nat)) /\
  (~ fits_float lifetime ->
   returned out = Raise (unexpected_error OverflowError) /\
   _cache (after out) = _cache self).
Proof.
  intros Hr Ht Hk Hv He Hc. cbn zeta.
  assert (handle_formats (cache_duration_seconds (config self)) (JObj fields) =
          inr (JStr value, JNum lifetime)) as Hf
    by (by rewrite handle_formats_obj, Ht, Hk, He).
  split; intros Hfit.
  - rewrite (fetch_stores self p env (JObj fields) value _ _ Hc Hr Hf Hv eq_refl Hfit).
    cbn [returned after]. split; [done|].
    set (entry := {| key := value; expires_at := time_store env + seconds lifetime |}).
    assert (_cache (with_cache (_get_client self) (<[p:=entry]> (_cache self))) !! p =
            Some entry) as Hentry by apply lookup_insert_eq.
    split; [done|]. intros Hneg env' Hlater.
    rewrite fetch_miss; [done|].
    apply (check_cache_expired _ p entry); [done|]. cbn.
    eapply Qle_lt_trans; [|exact Hlater].
    rewrite <- (Qplus_0_r (time_store env)) at 2. by apply Qplus_le_r.
  - rewrite (fetch_overflows self p env (JObj fields) (JStr value) _ lifetime Hc Hr Hf);
      [|cbn; by destruct (String.eqb_spec value EmptyString)|done|done].
    split; [done|]. apply get_client_cache.
Qed.

(** A key that comes with [expires_in = 0] at time 1000 is fetched again
    at time 1001. *)
Lemma short_lived_key_is_fetched_again :
  let out := fetch_api_key cold "anthropic"
               (at_time 1000 (http_json (JObj (short_lived "k1")))) in
  requests (fetch_api_key (after out) "anthropic"
              (at_time 1001 (http_json (JObj (short_lived "k2"))))) = 1%nat.
Proof.
  destruct (lifetime_is_taken_as_given cold "anthropic"
              (at_time 1000 (http_json (JObj (short_lived "k1"))))
              (short_lived "k1") "k1" (Int 0)) as [Hfits _];
    [by vm_compute..|].
  destruct Hfits as (_ & _ & Hagain); [by vm_compute|].
  apply Hagain; by vm_compute.
Defined.

(** A key that comes with [expires_in = 10 ** 400], met while the cached
    entry has expired: the call raises and the cache is as before. *)
Example huge_lifetime_is_an_error :
  let out := fetch_api_key stale "anthropic"
               (at_time 1000 (http_json (JObj huge_lifetime_fields))) in
  returned out = Raise (unexpected_error OverflowError) /\
  _cache (after out) = _cache stale.
Proof. by vm_compute. Qed.

Lemma try_block_lifetime_error self p data now api_key ev e :
  handle_formats (cache_duration_seconds (config self)) data = inr (api_key, ev) ->
  truthy api_key = true -> as_number ev = inl e ->
  try_block self p (http_json data) now = inl e.
Proof.
  intros Hf Ht Hn. unfold try_block. cbn. rewrite Hf. cbn. rewrite Ht. cbn.
  by rewrite Hn.
Qed.

(** X19.  In the api_key format an [expires_in] that is present but is no
    number (such as [null]) does not fall back to the configured duration:
    the call raises the "unexpected error" for the [TypeError] and the
    cache is left as it was. *)
Theorem lifetime_that_is_no_number_is_an_error
    (self : DynamicKeyProvider) (p : string) (env : call_env)
    (fields : gmap string json) (api_key expires_in : json) :
  response env = http_json (JObj fields) ->
  fields !! "token" = None ->
  fields !! "api_key" = Some api_key -> truthy api_key = true ->
  fields !! "expires_in" = Some expires_in ->
  as_number expires_in = inl TypeError ->
  check_cache self p (time_check env) = None ->
  let out := fetch_api_key self p env in
  returned out = Raise (unexpected_error TypeError) /\
  _cache (after out) = _cache self.
Proof.
  intros Hr Ht Hk Htruthy He Hn Hc. cbn zeta.
  rewrite (fetch_miss _ _ _ Hc), Hr. cbn [returned after].
  rewrite (fetch_new_key_raises _ _ _ _ TypeError).
  - split; [done|]. apply get_client_cache.
  - apply (try_block_lifetime_error _ _ _ _ api_key expires_in); try done.
    by rewrite handle_formats_obj, Ht, Hk, He.
Qed.

(** The body [{"api_key": "xyz", "expires_in": null}]. *)
Lemma null_lifetime_is_an_error :
  let out := fetch_api_key stale "anthropic"
               (at_time 1000 (http_json (JObj null_lifetime_fields))) in
  returned out = Raise (unexpected_error TypeError) /\
  _cache (after out) = _cache stale.
Proof.
  apply (lifetime_that_is_no_number_is_an_error stale "anthropic"
           (at_time 1000 (http_json (JObj null_lifetime_fields)))
           null_lifetime_fields (JStr "xyz") JNull);
    by vm_compute.
Defined.

End ProviderMore.

(** ** Server and provider together *)

Section ServedKeys.
Import KeyProvider Design Usage Examples MoreExamples.

Lemma served_token_nonempty poller now info :
  Server.get_current_token poller now = inr info ->
  Server.token info <> EmptyString /\
  Server.age_seconds info =
    (now - Poller.last_refresh_time (Poller.pattern poller))%Q.
Proof.
  unfold Server.get_current_token.
  destruct (Poller.current_token poller) as [tok|]; [|done].
  destruct (String.eqb_spec tok EmptyString); [done|]. by intros [= <-].
Qed.

(** X20.  What the server serves, the provider accepts.  Whenever
    [get_current_token] succeeds, the body of [GET /] and the body of
    [GET /anthropic] lead to the same key and the same lifetime,
    [max(60, 1800 - age_seconds)], which is at least 60 (the int 60, or a
    float above it); and a call that misses the cache and receives either
    body returns the poller's token and caches it for that lifetime. *)
Theorem provider_accepts_what_the_server_serves
    (poller : Poller.AdaptiveTokenPoller) (now : Q)
    (info : Server.token_info) (duration : Z) :
  Server.get_current_token poller now = inr info ->
  let lifetime := Qmax (60 # 1) ((1800 # 1) - Server.age_seconds info) in
  let expires_in :=
    if Qgtb ((1800 # 1) - Server.age_seconds info) (60 # 1)
    then Float ((1800 # 1) - Server.age_seconds info)
    else Int 60 in
  (60 <= lifetime)%Q /\
  seconds expires_in = lifetime /\
  handle_formats duration (Server.root_body info) =
    inr (JStr (Server.token info), JNum expires_in) /\
  (exists served,
      Server.get_anthropic_token poller now = inr served /\
      handle_formats duration (Server.anthropic_body served) =
        inr (JStr (Server.token info), JNum expires_in)) /\
  forall self p env,
    cache_duration_seconds (config self) = duration ->
    check_cache self p (time_check env) = None ->
    (response env = http_json (Server.root_body info) \/
     exists served,
       Server.get_anthropic_token poller now = inr served /\
       response env = http_json (Server.anthropic_body served)) ->
    returned (fetch_api_key self p env) = Return (Server.token info) /\
    _cache (after (fetch_api_key self p env)) !! p =
      Some {| key := Server.token info;
              expires_at := time_store env + lifetime |}.
Proof.
  intros Hinfo. cbn zeta.
  destruct (served_token_nonempty _ _ _ Hinfo) as [Hne _].
  set (expires_in := if Qgtb ((1800 # 1) - Server.age_seconds info) (60 # 1)
                     then Float ((1800 # 1) - Server.age_seconds info)
                     else Int 60).
  assert (expires_in = py_max 60 (int_minus 1800 (Float (Server.age_seconds info))))
    as Hexp by done.
  assert (seconds expires_in =
          Qmax (60 # 1) ((1800 # 1) - Server.age_seconds info)) as Hsec
    by (rewrite Hexp; apply py_max_Qmax).
  assert (fits_float expires_in) as Hfit
    by (unfold expires_in; by destruct (Qgtb _ _)).
  assert (handle_formats duration (Server.root_body info) =
          inr (JStr (Server.token info), JNum expires_in)) as Hroot.
  { unfold Server.root_body. by rewrite handle_formats_obj. }
  assert (forall served, Server.get_anthropic_token poller now = inr served ->
            handle_formats duration (Server.anthropic_body served) =
            inr (JStr (Server.token info), JNum expires_in)) as Hanth.
  { intros served. unfold Server.get_anthropic_token. rewrite Hinfo.
    intros [= <-]. unfold Server.anthropic_body. by rewrite handle_formats_obj. }
  split; [apply Q.le_max_l|]. split; [done|]. split; [done|]. split.
  { unfold Server.get_anthropic_token in *. rewrite Hinfo in *. eexists. split; [done|].
    by apply Hanth. }
  intros self p env Hd Hc Hresp.
  assert (exists data, response env = http_json data /\
            handle_formats (cache_duration_seconds (config self)) data =
            inr (JStr (Server.token info), JNum expires_in))
    as (data & Hr & Hf).
  { rewrite Hd. destruct Hresp as [Hr|(served & Hs & Hr)]; eexists; split; eauto. }
  rewrite (fetch_stores self p env data (Server.token info) _ _ Hc Hr Hf Hne eq_refl Hfit).
  cbn [returned after]. split; [done|]. rewrite Hsec. apply lookup_insert_eq.
Qed.

(** The token ["a"], 100 seconds old, served at [GET /] and fetched on a
    cold cache at time 2000. *)
Lemma served_token_is_cached :
  let env := at_time 2000 (http_json (Server.root_body served_info)) in
  returned (fetch_api_key cold "anthropic" env) = Return "a" /\
  _cache (after (fetch_api_key cold "anthropic" env)) !! "anthropic" =
    Some {| key := "a";
            expires_at :=
              time_store env + Qmax (60 # 1) ((1800 # 1) - (100 # 1)) |}.
Proof.
  destruct (provider_accepts_what_the_server_serves
              knows_one_token (1100 # 1) served_info 1800)
    as (_ & _ & _ & _ & Hfetch);
    [by vm_compute|].
  apply (Hfetch cold "anthropic"
           (at_time 2000 (http_json (Server.root_body served_info))));
    [done | by vm_compute | by left].
Defined.

End ServedKeys.

(** ** Any number of callers *)

Section ManyCallers.
Import KeyProvider Design Usage Examples MoreExamples.

Lemma at_lock_count_insert ts : forall i old new,
  ts !! i = Some old ->
  (at_lock_count (<[i := new]> ts) + (if is_at_lock old then 1 else 0) =
   at_lock_count ts + (if is_at_lock new then 1 else 0))%nat.
Proof.
  induction ts as [|t ts IH]; intros [|i] old new Hi; try done.
  - injection Hi as ->.
    change (<[0%nat := new]> (old :: ts)) with (new :: ts).
    cbn [at_lock_count].
    destruct (is_at_lock old), (is_at_lock new); lia.
  - change (ts !! i = Some old) in Hi. specialize (IH i old new Hi).
    change (<[S i := new]> (t :: ts)) with (t :: <[i := new]> ts).
    cbn [at_lock_count].
    destruct (is_at_lock t), (is_at_lock old), (is_at_lock new); lia.
Qed.

Lemma at_lock_count_bound ts : (at_lock_count ts <= length ts)%nat.
Proof. induction ts as [|t ts IH]; cbn; [done|]. destruct (is_at_lock t); lia. Qed.

Lemma run_step_accounted s st s' :
  requests_accounted s -> run_step s st = Some s' ->
  requests_accounted s' /\ length (tasks s') = length (tasks s).
Proof.
  unfold requests_accounted. intros Hinv.
  destruct st as [i now|i resp now|i]; cbn [run_step].
  - destruct (tasks s !! i) as [[name|name|r]|] eqn:Hi; try done.
    destruct (locked s); [done|].
    destruct (check_cache _ _ _) as [v|]; intros [= <-]; cbn [tasks sent];
      rewrite length_insert.
    + pose proof (at_lock_count_insert _ _ _ (finished (Return v)) Hi) as H.
      cbn in H. split; [lia|done].
    + pose proof (at_lock_count_insert _ _ _ (in_flight name) Hi) as H.
      cbn in H. split; [lia|done].
  - destruct (tasks s !! i) as [[name|name|r]|] eqn:Hi; try done.
    destruct (fetch_new_key _ _ _ _) as [r self']. intros [= <-]; cbn [tasks sent].
    rewrite length_insert.
    pose proof (at_lock_count_insert _ _ _ (finished r) Hi) as H.
    cbn in H. split; [lia|done].
  - destruct (tasks s !! i) as [[name|name|r]|] eqn:Hi; try done.
    intros [= <-]; cbn [tasks sent]. rewrite length_insert.
    pose proof (at_lock_count_insert _ _ _ (finished (Raise CancelledError)) Hi) as H.
    cbn in H. split; [lia|done].
Qed.

Lemma run_accounted steps : forall s s',
  requests_accounted s -> run s steps = Some s' ->
  requests_accounted s' /\ length (tasks s') = length (tasks s).
Proof.
  induction steps as [|st steps IH]; intros s s' Hinv; cbn.
  - by intros [= <-].
  - destruct (run_step s st) as [s1|] eqn:Hst; cbn; [|done].
    destruct (run_step_accounted _ _ _ Hinv Hst) as [Hinv1 Hlen1].
    intros Hrun. destruct (IH _ _ Hinv1 Hrun) as [Hinv' Hlen']. split; [done|congruence].
Qed.

Lemma at_lock_count_callers names :
  at_lock_count (map at_lock names) = length names.
Proof. induction names as [|n names IH]; cbn; [done|]. by rewrite IH. Qed.

Lemma in_flight_count_callers names :
  in_flight_count (map at_lock names) = 0%nat.
Proof. induction names as [|n names IH]; cbn; done. Qed.

(** X21.  With any number of callers started together, for any keys, at
    no point of any run is more than one request in flight, the lock is
    held exactly while one is, and no more requests are sent than there are
    callers. *)
Theorem callers_are_serialised
    (self : DynamicKeyProvider) (names : list string) (steps : list step)
    (s : system) :
  run (callers self names) steps = Some s ->
  (in_flight_count (tasks s) <= 1)%nat /\
  (locked s = true <-> in_flight_count (tasks s) = 1%nat) /\
  (sent s <= length names)%nat.
Proof.
  intros Hrun.
  assert (lock_invariant (callers self names)) as Hlock.
  { unfold lock_invariant, callers. cbn. apply in_flight_count_callers. }
  assert (requests_accounted (callers self names)) as Hacc.
  { unfold requests_accounted, callers. cbn.
    rewrite at_lock_count_callers, length_map. lia. }
  pose proof (run_invariant _ _ _ Hlock Hrun) as Hinv. unfold lock_invariant in Hinv.
  destruct (run_accounted _ _ _ Hacc Hrun) as [Hsent Hlen].
  unfold requests_accounted in Hsent. cbn in Hlen. rewrite length_map in Hlen.
  split; [rewrite Hinv; destruct (locked s); lia|].
  split; [rewrite Hinv; destruct (locked s); split; done|]. lia.
Qed.

(** The two callers of the run that is served once. *)
Lemma two_callers_are_serialised :
  (in_flight_count (tasks served_once) <= 1)%nat /\
  (locked served_once = true <-> in_flight_count (tasks served_once) = 1%nat) /\
  (sent served_once <= length ["anthropic"; "anthropic"])%nat.
Proof.
  apply (callers_are_serialised cold ["anthropic"; "anthropic"]
           run_after_success served_once).
  by vm_compute.
Defined.

End ManyCallers.
